(** * Event.hh: connections, deferred removal and signalling

    A sequential model of [ignition::common::Event], [Connection] and
    [EventT<T, N>] (src/src/Event.hh).

    - [std::map<int, std::unique_ptr<EventConnection>>] is a [gmap Z _];
      a map iterator is the key of the node it points to, [end()] is
      [None], and [begin()] / [++it] are computed on the map as it is at
      that moment, as a live iteration over a [std::map] does.
    - [std::list<const_iterator> connectionsToRemove] is a [list Z].
    - [std::atomic_bool on] is a [bool]; the mutex has no sequential
      content.  An [int] is a [Z]; no id is near the ends of [int].
    - A callback is a program over the public members of the event that
      calls it ([Connect], [Disconnect], [ConnectionCount], [Signaled],
      [SetSignaled]); it does not call [Signal] again.  The arguments of
      [Signal] are a value that every callback of the pass receives, as
      forwarding an [int] does.  An exception is a value of type [Exn].
    - A raw [Event *] is an optional location in a store of events;
      following a pointer whose event was destroyed, and erasing through
      an iterator whose node was already erased, are undefined behaviour. *)

From stdpp Require Import base option list strings gmap sorting.
From Stdlib Require Import ZArith Lia.

Local Open Scope Z_scope.

(** ** Results of running code *)

(** How a call ends: it returns, or an exception leaves it. *)
Inductive completion (Exn : Type) : Type :=
| Returned
| Threw (e : Exn).
Arguments Returned {Exn}.
Arguments Threw {Exn} e.

(** A run of a loop that is bounded by fuel in the model. *)
Inductive outcome (A : Type) : Type :=
| Ok (a : A)
| Undef
| OutOfFuel.
Arguments Ok {A} a.
Arguments Undef {A}.
Arguments OutOfFuel {A}.

(** ** std::map iteration *)

(** The least element of a list of keys. *)
Definition least (ks : list Z) : option Z :=
  foldr (λ k acc, Some (from_option (Z.min k) k acc)) None ks.

(** [m.begin()]: the smallest key, [None] for [m.end()]. *)
Definition map_begin {V} (m : gmap Z V) : option Z :=
  least (elements (dom m)).

(** [++it] for an iterator at key [k]: the smallest key above [k]. *)
Definition map_next {V} (k : Z) (m : gmap Z V) : option Z :=
  least (filter (λ j, k < j) (elements (dom m))).

(** [m.erase(it)] for each queued iterator, in order.  Erasing through an
    iterator whose node is no longer in the map is undefined: [None]. *)
Fixpoint erase_all {V} (its : list Z) (m : gmap Z V) : option (gmap Z V) :=
  match its with
  | [] => Some m
  | it :: its' =>
      match m !! it with
      | Some _ => erase_all its' (delete it m)
      | None => None
      end
  end.

(** ** class Connection *)

Definition loc := positive.

(** [Event *event = nullptr; int id = -1;]  The member [creationTime] is
    never read in Event.hh and is left out. *)
Record Connection : Type := {
  event : option loc;
  id : Z
}.

(** [Connection::Connection(Event *_e, const int _i)] *)
Definition Connection_ctor (_e : option loc) (_i : Z) : Connection :=
  {| event := _e; id := _i |}.

(** [Connection::Id] *)
Definition Id (c : Connection) : Z := id c.

Section EventT.
Context {Args Exn : Type}.

(** ** Callbacks *)

(** What a callback does when it is called: it returns, throws, or calls
    a public member of the event that is signalling it and goes on with
    the result. *)
Inductive prog : Type :=
| Ret
| Throw (e : Exn)
| CallConnect (cb : Args → prog) (k : Z → prog)
| CallDisconnect (_id : Z) (k : prog)
| CallConnectionCount (k : Z → prog)
| CallSignaled (k : bool → prog)
| CallSetSignaled (_sig : bool) (k : prog).

(** [using CallbackT = std::function<T>] *)
Definition CallbackT : Type := Args → prog.

(** ** class EventT *)

(** [EventT::EventConnection] *)
Record EventConnection : Type := {
  on : bool;
  callback : CallbackT
}.

(** The members of [Event] ([signaled]) and of [EventT] ([connections],
    [connectionsToRemove]).  [nextId] is no member in Event.hh: it is the
    counter that [Connect], below, takes its ids from. *)
Record EventT : Type := {
  signaled : bool;
  connections : gmap Z EventConnection;
  connectionsToRemove : list Z;
  nextId : Z
}.

(** [Event::Event() : signaled(false)] and [EventT::EventT()]; the
    counter of [Connect] starts at 0, the least id a handle can revoke. *)
Definition EventT_ctor : EventT :=
  {| signaled := false; connections := ∅; connectionsToRemove := [];
     nextId := 0 |}.

(** [EventT::~EventT]: [this->connections.clear()]. *)
Definition EventT_dtor (s : EventT) : EventT :=
  {| signaled := signaled s; connections := ∅;
     connectionsToRemove := connectionsToRemove s; nextId := nextId s |}.

(** [Event::Signaled] *)
Definition Signaled (s : EventT) : bool := signaled s.

(** [Event::SetSignaled] *)
Definition SetSignaled (_sig : bool) (s : EventT) : EventT :=
  {| signaled := _sig; connections := connections s;
     connectionsToRemove := connectionsToRemove s; nextId := nextId s |}.

(** [EventT::ConnectionCount]: [size()] converted to [unsigned int]. *)
Definition ConnectionCount (s : EventT) : Z :=
  Z.of_nat (size (connections s)) mod 2 ^ 32.

(** [EventT::Disconnect] *)
Definition Disconnect (_id : Z) (s : EventT) : EventT :=
  match connections s !! _id with
  | Some c =>
      {| signaled := signaled s;
         connections :=
           <[_id := {| on := false; callback := callback c |}]> (connections s);
         connectionsToRemove := connectionsToRemove s ++ [_id];
         nextId := nextId s |}
  | None => s
  end.

(** [EventT::Cleanup]: every queued iterator is erased, then the queue
    is cleared; [None] when an erase is undefined. *)
Definition Cleanup (s : EventT) : option EventT :=
  m ← erase_all (connectionsToRemove s) (connections s);
  Some {| signaled := signaled s; connections := m;
          connectionsToRemove := []; nextId := nextId s |}.

(** Modelled from the spec: [EventT::Connect] is not part of Event.hh.
    "allocates id = nextId++, inserts {enabled: true, callback} into
    entries, returns a new handle bound to (this, id)"; the id of the
    handle is returned here, the handle is built by [Connect_at]. *)
Definition Connect (cb : CallbackT) (s : EventT) : Z * EventT :=
  (nextId s,
   {| signaled := signaled s;
      connections :=
        <[nextId s := {| on := true; callback := cb |}]> (connections s);
      connectionsToRemove := connectionsToRemove s;
      nextId := nextId s + 1 |}).

(** The body of a callback, run on the event that called it. *)
Fixpoint run (p : prog) (s : EventT) : completion Exn * EventT :=
  match p with
  | Ret => (Returned, s)
  | Throw e => (Threw e, s)
  | CallConnect cb k => let '(i, s') := Connect cb s in run (k i) s'
  | CallDisconnect _id k => run k (Disconnect _id s)
  | CallConnectionCount k => run (k (ConnectionCount s)) s
  | CallSignaled k => run (k (Signaled s)) s
  | CallSetSignaled _sig k => run k (SetSignaled _sig s)
  end.

(** What one call of [Signal] leaves: the ids whose callbacks it called,
    in the order of the calls, how it ended, and the event. *)
Record pass : Type := {
  invoked : list Z;
  ending : completion Exn;
  final : EventT
}.

(** The range-for of [EventT::Signal], from iterator [it] on.  No callback
    erases a node (only [Cleanup] does), so the node [it] points to is
    still linked when [++it] runs. *)
Fixpoint Signal_loop (fuel : nat) (args : Args) (it : option Z)
    (tr : list Z) (s : EventT) : outcome pass :=
  match it with
  | None => Ok {| invoked := tr; ending := Returned; final := s |}
  | Some k =>
      match fuel with
      | O => OutOfFuel
      | S fuel' =>
          match connections s !! k with
          | None => Undef
          | Some c =>
              if on c then
                match run (callback c args) s with
                | (Returned, s') =>
                    Signal_loop fuel' args (map_next k (connections s'))
                      (tr ++ [k]) s'
                | (Threw e, s') =>
                    Ok {| invoked := tr ++ [k]; ending := Threw e;
                          final := s' |}
                end
              else Signal_loop fuel' args (map_next k (connections s)) tr s
          end
      end
  end.

(** [EventT::Signal] (and [operator()], which forwards to it). *)
Definition Signal (fuel : nat) (args : Args) (s : EventT) : outcome pass :=
  match Cleanup s with
  | None => Undef
  | Some s1 =>
      let s2 := SetSignaled true s1 in
      Signal_loop fuel args (map_begin (connections s2)) [] s2
  end.

(** ** Events behind pointers *)

(** The events that are alive, by location. *)
Local Abbreviation store := (gmap loc EventT).

(** [e->Disconnect(_id)] through a pointer; undefined when no event
    lives at [e]. *)
Definition Disconnect_at (e : loc) (_id : Z) (h : store) : option store :=
  s ← h !! e; Some (<[e := Disconnect _id s]> h).

(** Modelled from the spec: [e->Connect(cb)] through a pointer, which
    "returns a new handle bound to (this, id)". *)
Definition Connect_at (e : loc) (cb : CallbackT) (h : store)
    : option (Connection * store) :=
  s ← h !! e;
  let '(i, s') := Connect cb s in
  Some (Connection_ctor (Some e) i, <[e := s']> h).

(** [delete e]: the destructor runs, then the event is gone. *)
Definition delete_at (e : loc) (h : store) : option store :=
  s ← h !! e; let _ := EventT_dtor s in Some (delete e h).

(** [Connection::~Connection]: the fields of the handle as the body
    leaves them, and the store. *)
Definition Connection_dtor (c : Connection) (h : store)
    : option (Connection * store) :=
  match event c with
  | Some e =>
      if bool_decide (0 ≤ id c) then
        h' ← Disconnect_at e (id c) h;
        Some ({| event := None; id := -1 |}, h')
      else Some (c, h)
  | None => Some (c, h)
  end.

(** ** Predicates of the statements *)

(** Every id in the map was handed out by the counter of [Connect]. *)
Definition ids_issued (s : EventT) : Prop :=
  ∀ i, is_Some (connections s !! i) → i < nextId s.

(** The state invariant in the words of the specification: the pending
    removals form a set, each is a key of the map, and each entry they
    refer to is disabled. *)
Definition spec_invariant (s : EventT) : Prop :=
  NoDup (connectionsToRemove s) ∧
  ∀ i, i ∈ connectionsToRemove s →
       ∃ c, connections s !! i = Some c ∧ on c = false.

(** The part of it that does not speak of duplicates. *)
Definition queued_disabled (s : EventT) : Prop :=
  ∀ i, i ∈ connectionsToRemove s →
       ∃ c, connections s !! i = Some c ∧ on c = false.

(** The loop of [Signal] moving on from iterator [it] over entries that
    are disabled or whose callback returns: the iterator, the calls made
    and the event before and after. *)
Inductive advances (args : Args)
  : option Z → list Z → EventT → option Z → list Z → EventT → Prop :=
| advances_here it tr s : advances args it tr s it tr s
| advances_call k c tr s s' it' tr' s'' :
    connections s !! k = Some c →
    on c = true →
    run (callback c args) s = (Returned, s') →
    advances args (map_next k (connections s')) (tr ++ [k]) s' it' tr' s'' →
    advances args (Some k) tr s it' tr' s''
| advances_skip k c tr s it' tr' s'' :
    connections s !! k = Some c →
    on c = false →
    advances args (map_next k (connections s)) tr s it' tr' s'' →
    advances args (Some k) tr s it' tr' s''.

(** A callback body that never calls [SetSignaled(false)], nor connects a
    callback that does. *)
Inductive keeps_signaled : prog → Prop :=
| ks_Ret : keeps_signaled Ret
| ks_Throw e : keeps_signaled (Throw e)
| ks_Connect cb k :
    (∀ a, keeps_signaled (cb a)) → (∀ i, keeps_signaled (k i)) →
    keeps_signaled (CallConnect cb k)
| ks_Disconnect i k : keeps_signaled k → keeps_signaled (CallDisconnect i k)
| ks_ConnectionCount k :
    (∀ n, keeps_signaled (k n)) → keeps_signaled (CallConnectionCount k)
| ks_Signaled k :
    (∀ b, keeps_signaled (k b)) → keeps_signaled (CallSignaled k)
| ks_SetSignaled k :
    keeps_signaled k → keeps_signaled (CallSetSignaled true k).

(** Every callback stored in the event keeps the flag. *)
Definition callbacks_keep_signaled (s : EventT) : Prop :=
  ∀ i c a, connections s !! i = Some c → keeps_signaled (callback c a).

(** A callback body that returns and leaves the event as it found it. *)
Definition returns (p : prog) : Prop := ∀ s, run p s = (Returned, s).

(** Every enabled callback does so when called with [args]. *)
Definition callbacks_return (args : Args) (s : EventT) : Prop :=
  ∀ i c, connections s !! i = Some c → on c = true →
         returns (callback c args).

(** [s'] follows [s]: ids are only added, at or above the counter of
    [s], and no entry is switched back on or given another callback. *)
Definition follows (s s' : EventT) : Prop :=
  nextId s ≤ nextId s' ∧
  (∀ i c, connections s !! i = Some c →
     ∃ c', connections s' !! i = Some c' ∧ callback c' = callback c ∧
           (on c' = true → on c = true)) ∧
  (∀ i, connections s !! i = None → is_Some (connections s' !! i) →
     nextId s ≤ i) ∧
  ids_issued s'.

(** The keys from [k] on: what an iteration standing at [k] has left. *)
Definition rest_of (k : Z) (s : EventT) : gset Z :=
  filter (λ j, k ≤ j) (dom (connections s)).

End EventT.

Arguments prog : clear implicits.
Arguments CallbackT : clear implicits.
Arguments EventConnection : clear implicits.
Arguments EventT : clear implicits.
Arguments pass : clear implicits.

(** The events that are alive, by location. *)
Abbreviation store Args Exn := (gmap loc (EventT Args Exn)) (only parsing).

(** ** Events of signature [void(int)] used in the examples *)

(** A callback that returns at once. *)
Definition quiet : CallbackT Z string := λ _, Ret.

(** A callback that connects [quiet] and returns. *)
Definition connector : CallbackT Z string :=
  λ _, CallConnect quiet (λ _, Ret).

(** A callback that throws. *)
Definition thrower : CallbackT Z string := λ _, Throw "boom".

(** A callback that disconnects the connection [i]. *)
Definition disconnector (i : Z) : CallbackT Z string :=
  λ _, CallDisconnect i Ret.

(** A callback that clears the signaled flag when called with 5, and
    throws when called with anything else. *)
Definition clears_on_5 : CallbackT Z string :=
  λ n, if bool_decide (n = 5) then CallSetSignaled false Ret
       else Throw "f1 called".

(** A callback that, called with 5, throws unless the signaled flag has
    been cleared, and, called with anything else, clears the flag. *)
Definition checks_on_5 : CallbackT Z string :=
  λ n, if bool_decide (n = 5)
       then CallSignaled (λ b, if b then Throw "f2 before f1" else Ret)
       else CallSetSignaled false Ret.

(** A fresh event with one connection, of id 0. *)
Definition one_connection : EventT Z string :=
  (Connect quiet EventT_ctor).2.

(** The same after [Disconnect(0)]. *)
Definition one_revoked : EventT Z string := Disconnect 0 one_connection.

(** A fresh event in which [connector] is connected, with id 0. *)
Definition connecting_event : EventT Z string :=
  (Connect connector EventT_ctor).2.

(** A store with one fresh event, at location 1. *)
Definition one_event : store Z string := {[1%positive := EventT_ctor]}.

(** Four connections: 0 is revoked before the pass, 1 disconnects 3 when
    called, 2 throws, 3 returns. *)
Definition four_connections : EventT Z string :=
  Disconnect 0
    (Connect quiet
       (Connect thrower
          (Connect (disconnector 3) (Connect quiet EventT_ctor).2).2).2).2.

(** * Properties *)

(** ** Iteration over the map *)

Lemma least_nil ks : least ks = None ↔ ks = [].
Proof. destruct ks; simpl; split; congruence. Qed.

Lemma least_Some ks k :
  least ks = Some k → k ∈ ks ∧ ∀ j, j ∈ ks → k ≤ j.
Proof.
  revert k. induction ks as [|a ks IH]; intros k; simpl; [done|].
  intros [= <-]. destruct (least ks) as [m|] eqn:Hm; simpl.
  - destruct (IH m eq_refl) as [Hin Hle]. split.
    + destruct (Z.min_spec a m) as [[_ ->]|[_ ->]];
        [apply list_elem_of_here|by apply list_elem_of_further].
    + intros j [->|Hj]%elem_of_cons; [lia|]. specialize (Hle j Hj). lia.
  - apply least_nil in Hm as ->. split; [apply list_elem_of_here|].
    intros j [->|Hj]%elem_of_cons; [lia|]. by apply elem_of_nil in Hj.
Qed.

Lemma least_is_Some ks j : j ∈ ks → is_Some (least ks).
Proof.
  intros Hj. destruct (least ks) eqn:E; [eauto|].
  apply least_nil in E as ->. by apply elem_of_nil in Hj.
Qed.

Section iteration.
Context {V : Type}.
Implicit Types (m : gmap Z V) (k j i : Z) (its : list Z).

Lemma map_begin_Some m k :
  map_begin m = Some k →
  is_Some (m !! k) ∧ ∀ i, is_Some (m !! i) → k ≤ i.
Proof.
  intros [Hin Hle]%least_Some. split.
  - by apply elem_of_dom, elem_of_elements.
  - intros i Hi. by apply Hle, elem_of_elements, elem_of_dom.
Qed.

Lemma map_begin_None m : map_begin m = None → m = ∅.
Proof.
  intros H%least_nil. apply elements_empty_inv in H.
  apply dom_empty_inv_L. by apply leibniz_equiv.
Qed.

Lemma map_next_Some m k j :
  map_next k m = Some j →
  is_Some (m !! j) ∧ k < j ∧ ∀ i, is_Some (m !! i) → k < i → j ≤ i.
Proof.
  intros [[Hlt Hin]%list_elem_of_filter Hle]%least_Some. split_and!.
  - by apply elem_of_dom, elem_of_elements.
  - done.
  - intros i Hi Hki. apply Hle, list_elem_of_filter. split; [done|].
    by apply elem_of_elements, elem_of_dom.
Qed.

Lemma map_next_None m k i :
  map_next k m = None → is_Some (m !! i) → i ≤ k.
Proof.
  intros H Hi. destruct (decide (i ≤ k)) as [|Hn]; [done|].
  assert (is_Some (map_next k m)) as [? ?]; [|congruence].
  apply (least_is_Some _ i), list_elem_of_filter. split; [lia|].
  by apply elem_of_elements, elem_of_dom.
Qed.

(** ** Erasing the queued iterators *)

(** When every erase is defined, the queue had no iterator twice, each
    pointed into the map, and exactly the queued keys are gone. *)
Lemma erase_all_Some its m m' :
  erase_all its m = Some m' →
  NoDup its ∧ (∀ i, i ∈ its → is_Some (m !! i)) ∧
  (∀ i, i ∈ its → m' !! i = None) ∧
  (∀ i, i ∉ its → m' !! i = m !! i) ∧
  (size m' + length its = size m)%nat.
Proof.
  revert m. induction its as [|it its IH]; intros m; simpl.
  - intros [= <-]. split_and!; [constructor| | |done|lia].
    all: by intros i ?%elem_of_nil.
  - destruct (m !! it) as [v|] eqn:Hit; [|done]. intros H.
    destruct (IH _ H) as (Hnd & Hin & Hgone & Hkept & Hsz).
    assert (it ∉ its) as Hnotin.
    { intros Hi. destruct (Hin it Hi) as [? Hx].
      by rewrite lookup_delete_eq in Hx. }
    split_and!.
    + by constructor.
    + intros i [->|Hi]%elem_of_cons; [by rewrite Hit; eauto|].
      destruct (Hin i Hi) as [x Hx].
      apply lookup_delete_Some in Hx as [_ Hx]. rewrite Hx. eauto.
    + intros i [->|Hi]%elem_of_cons; [|by apply Hgone].
      rewrite Hkept by done. apply lookup_delete_eq.
    + intros i [Hne Hi]%not_elem_of_cons.
      rewrite Hkept by done. by apply lookup_delete_ne.
    + rewrite map_size_delete, Hit in Hsz.
      assert (size m ≠ 0%nat).
      { intros ->%map_size_empty_iff. by rewrite lookup_empty in Hit. }
      lia.
Qed.

Lemma erase_all_is_Some its m :
  NoDup its → (∀ i, i ∈ its → is_Some (m !! i)) → is_Some (erase_all its m).
Proof.
  revert m. induction its as [|it its IH]; intros m Hnd Hin; simpl; [eauto|].
  apply NoDup_cons in Hnd as [Hnotin Hnd].
  destruct (Hin it) as [v ->]; [apply list_elem_of_here|].
  apply IH; [done|]. intros i Hi.
  rewrite lookup_delete_ne by (intros ->; done).
  apply Hin. by apply list_elem_of_further.
Qed.

End iteration.

Section properties.
Context {Args Exn : Type}.
Implicit Types (s : EventT Args Exn) (p : prog Args Exn).
Implicit Types (cb : CallbackT Args Exn) (c : EventConnection Args Exn).
Implicit Types (i k : Z) (it : option Z) (tr : list Z) (args : Args).
Implicit Types (h : store Args Exn).

(** ** Disconnect and Cleanup *)

Lemma Disconnect_absent i s :
  connections s !! i = None → Disconnect i s = s.
Proof. unfold Disconnect. by intros ->. Qed.

(** An entry that is found is switched off and queued, whatever its flag
    was. *)
Lemma Disconnect_present i s c :
  connections s !! i = Some c →
  Disconnect i s =
    {| signaled := signaled s;
       connections :=
         <[i := {| on := false; callback := callback c |}]> (connections s);
       connectionsToRemove := connectionsToRemove s ++ [i];
       nextId := nextId s |}.
Proof. unfold Disconnect. by intros ->. Qed.

Lemma Disconnect_size i s :
  size (connections (Disconnect i s)) = size (connections s).
Proof.
  unfold Disconnect. destruct (connections s !! i) eqn:E; [|done]. simpl.
  apply map_size_insert_Some. rewrite E. eauto.
Qed.

Lemma Cleanup_Some s s1 :
  Cleanup s = Some s1 →
  signaled s1 = signaled s ∧ nextId s1 = nextId s ∧
  connectionsToRemove s1 = [] ∧
  erase_all (connectionsToRemove s) (connections s) = Some (connections s1).
Proof.
  unfold Cleanup. destruct (erase_all _ _) as [m|]; [|done].
  by intros [= <-].
Qed.

(** After two [Disconnect]s of one entry the next [Cleanup] erases
    through the same iterator twice. *)
Lemma Disconnect_twice_Cleanup i s :
  is_Some (connections s !! i) → Cleanup (Disconnect i (Disconnect i s)) = None.
Proof.
  intros [c Hc]. rewrite (Disconnect_present i s c Hc).
  erewrite Disconnect_present by (simpl; apply lookup_insert_eq). simpl.
  destruct (Cleanup _) as [s1|] eqn:E; [|done]. exfalso.
  apply Cleanup_Some in E as (_ & _ & _ & E). simpl in E.
  apply erase_all_Some in E as (Hnd & _). rewrite <-app_assoc in Hnd.
  apply NoDup_app in Hnd as (_ & _ & Hnd).
  apply NoDup_cons in Hnd as [Hnotin _].
  apply Hnotin, list_elem_of_here.
Qed.

(** ** What a callback can do to the event *)

Lemma ids_issued_ctor : ids_issued (@EventT_ctor Args Exn).
Proof. intros i [c Hc]. simpl in Hc. by rewrite lookup_empty in Hc. Qed.

Lemma follows_refl s : ids_issued s → follows s s.
Proof.
  intros Hs. split_and!; [lia| |intros i -> [? ?]; done|done].
  intros i c Hc. eauto.
Qed.

Lemma follows_trans s1 s2 s3 : follows s1 s2 → follows s2 s3 → follows s1 s3.
Proof.
  intros (Hn1 & Ho1 & Hnew1 & _) (Hn2 & Ho2 & Hnew2 & Hw3).
  split_and!; [lia| | |done].
  - intros i c Hc. destruct (Ho1 i c Hc) as (c1 & H1 & Hcb1 & Hon1).
    destruct (Ho2 i c1 H1) as (c2 & H2 & Hcb2 & Hon2).
    exists c2. split_and!; [done|congruence|auto].
  - intros i Hi H3. destruct (connections s2 !! i) as [c2|] eqn:E2.
    + apply Hnew1; [done|]. rewrite E2. eauto.
    + specialize (Hnew2 i E2 H3). lia.
Qed.

Lemma follows_ids_issued s s' : follows s s' → ids_issued s'.
Proof. by intros (_ & _ & _ & ?). Qed.

Lemma Connect_follows cb s : ids_issued s → follows s (Connect cb s).2.
Proof.
  intros Hs. unfold Connect; simpl. split_and!; simpl.
  - lia.
  - intros i c Hc. exists c. rewrite lookup_insert_ne; [done|].
    intros <-. assert (nextId s < nextId s); [|lia].
    apply Hs. rewrite Hc. eauto.
  - intros i Hi. rewrite lookup_insert. case_decide; [lia|].
    rewrite Hi. by intros [? ?].
  - intros i. simpl. rewrite lookup_insert. case_decide; [lia|].
    intros Hi%Hs. lia.
Qed.

Lemma Disconnect_follows i s : ids_issued s → follows s (Disconnect i s).
Proof.
  intros Hs. unfold Disconnect.
  destruct (connections s !! i) as [ci|] eqn:Ei; [|by apply follows_refl].
  split_and!; simpl.
  - lia.
  - intros j c Hc. rewrite lookup_insert. case_decide as Hij.
    + subst j. eexists. split_and!; [done|simpl; congruence|done].
    + eauto.
  - intros j Hj. rewrite lookup_insert. case_decide; [congruence|].
    rewrite Hj. by intros [? ?].
  - intros j. simpl. rewrite lookup_insert. case_decide.
    + subst j. intros _. apply Hs. rewrite Ei. eauto.
    + apply Hs.
Qed.

Lemma SetSignaled_follows b s : ids_issued s → follows s (SetSignaled b s).
Proof. intros Hs. by apply follows_refl in Hs. Qed.

Lemma run_follows p s : ids_issued s → follows s (run p s).2.
Proof.
  revert s. induction p as [|e|cb IHcb k IHk|i k IHk|k IHk|k IHk|b k IHk];
    intros s Hs; simpl.
  - by apply follows_refl.
  - by apply follows_refl.
  - pose proof (Connect_follows cb s Hs) as Hf.
    eapply follows_trans; [exact Hf|]. apply IHk, Hf.
  - pose proof (Disconnect_follows i s Hs) as Hf.
    eapply follows_trans; [exact Hf|]. apply IHk, Hf.
  - by apply IHk.
  - by apply IHk.
  - pose proof (SetSignaled_follows b s Hs) as Hf.
    eapply follows_trans; [exact Hf|]. apply IHk, Hf.
Qed.

Lemma Cleanup_ids_issued s s1 :
  Cleanup s = Some s1 → ids_issued s → ids_issued s1.
Proof.
  intros (_ & Hn & _ & (_ & _ & Hgone & Hkept & _)%erase_all_Some)%Cleanup_Some.
  intros Hs i [c Hc]. rewrite Hn. apply Hs.
  destruct (decide (i ∈ connectionsToRemove s)) as [Hi|Hi].
  - rewrite Hgone in Hc by done. done.
  - rewrite Hkept in Hc by done. rewrite Hc. eauto.
Qed.

Lemma run_keeps_signaled p s :
  keeps_signaled p → callbacks_keep_signaled s → signaled s = true →
  callbacks_keep_signaled (run p s).2 ∧ signaled (run p s).2 = true.
Proof.
  intros Hp. revert s.
  induction Hp as [|e|cb k Hcb _ Hk IHk|i k Hk IHk|k Hk IHk|k Hk IHk|k Hk IHk];
    intros s Hs Hsig; simpl; try done.
  - apply IHk; [|done]. intros j c a. simpl. rewrite lookup_insert.
    case_decide; [intros [= <-]; apply Hcb|apply Hs].
  - apply IHk.
    + intros j c a. unfold Disconnect.
      destruct (connections s !! i) as [ci|] eqn:Ei; [|apply Hs]. simpl.
      rewrite lookup_insert. case_decide; [|apply Hs].
      subst j. intros [= <-]. simpl. by eapply Hs.
    + unfold Disconnect. by destruct (connections s !! i).
  - by apply IHk.
  - by apply IHk.
  - by apply IHk.
Qed.

Lemma Cleanup_keeps_signaled s s1 :
  Cleanup s = Some s1 → callbacks_keep_signaled s →
  callbacks_keep_signaled s1.
Proof.
  intros (_ & _ & _ & (_ & _ & Hgone & Hkept & _)%erase_all_Some)%Cleanup_Some.
  intros Hs i c a Hc. apply (Hs i).
  destruct (decide (i ∈ connectionsToRemove s)) as [Hi|Hi].
  - rewrite Hgone in Hc by done. done.
  - by rewrite Hkept in Hc by done.
Qed.

(** ** The loop of Signal *)

Lemma Signal_unfold fuel args s s1 :
  Cleanup s = Some s1 →
  Signal fuel args s
  = Signal_loop fuel args (map_begin (connections s1)) [] (SetSignaled true s1).
Proof. unfold Signal. by intros ->. Qed.

Lemma Signal_loop_call n args k tr s c s' :
  connections s !! k = Some c → on c = true →
  run (callback c args) s = (Returned, s') →
  Signal_loop (S n) args (Some k) tr s
  = Signal_loop n args (map_next k (connections s')) (tr ++ [k]) s'.
Proof. intros Hc Hon Hrun. simpl. by rewrite Hc, Hon, Hrun. Qed.

Lemma Signal_loop_throw n args k tr s c e s' :
  connections s !! k = Some c → on c = true →
  run (callback c args) s = (Threw e, s') →
  Signal_loop (S n) args (Some k) tr s
  = Ok {| invoked := tr ++ [k]; ending := Threw e; final := s' |}.
Proof. intros Hc Hon Hrun. simpl. by rewrite Hc, Hon, Hrun. Qed.

Lemma Signal_loop_skip n args k tr s c :
  connections s !! k = Some c → on c = false →
  Signal_loop (S n) args (Some k) tr s
  = Signal_loop n args (map_next k (connections s)) tr s.
Proof. intros Hc Hon. simpl. by rewrite Hc, Hon. Qed.

Lemma Signal_loop_end n args tr s :
  Signal_loop n args None tr s
  = Ok {| invoked := tr; ending := Returned; final := s |}.
Proof. by destruct n. Qed.

(** More fuel does not change a run that had enough. *)
Lemma Signal_loop_fuel_mono fuel fuel' args it tr s r :
  Signal_loop fuel args it tr s = r → r ≠ OutOfFuel → (fuel ≤ fuel')%nat →
  Signal_loop fuel' args it tr s = r.
Proof.
  revert fuel' it tr s. induction fuel as [|n IH]; intros fuel' it tr s.
  - destruct it; simpl; [congruence|]. intros <- _ _. by destruct fuel'.
  - intros Hr Hne Hle. destruct fuel' as [|n']; [lia|].
    destruct it as [k|]; [|done]. simpl in *.
    destruct (connections s !! k) as [c|]; [|done].
    destruct (on c).
    + destruct (run (callback c args) s) as [[|e] s']; [|done].
      apply IH; [done|done|lia].
    + apply IH; [done|done|lia].
Qed.

Lemma Signal_fuel_mono fuel fuel' args s r :
  Signal fuel args s = r → r ≠ OutOfFuel → (fuel ≤ fuel')%nat →
  Signal fuel' args s = r.
Proof.
  unfold Signal. destruct (Cleanup s); [|done].
  apply Signal_loop_fuel_mono.
Qed.

(** The loop never dereferences an iterator that is not in the map: the
    only undefined behaviour of [Signal] is that of [Cleanup]. *)
Lemma Signal_loop_defined fuel args it tr s :
  (∀ k, it = Some k → is_Some (connections s !! k)) →
  Signal_loop fuel args it tr s ≠ Undef.
Proof.
  revert it tr s. induction fuel as [|n IH]; intros it tr s Hit.
  - by destruct it.
  - destruct it as [k|]; [|done]. simpl.
    destruct (Hit k eq_refl) as [c ->]. destruct (on c).
    + destruct (run (callback c args) s) as [[|e] s']; [|done].
      apply IH. by intros j (? & _)%map_next_Some.
    + apply IH. by intros j (? & _)%map_next_Some.
Qed.

Lemma Signal_defined fuel args s :
  is_Some (Cleanup s) → Signal fuel args s ≠ Undef.
Proof.
  intros [s1 E]. rewrite (Signal_unfold _ _ _ _ E).
  apply Signal_loop_defined. by intros k (? & _)%map_begin_Some.
Qed.

(** A pass only adds ids, above the counter, and switches nothing on. *)
Lemma Signal_loop_follows fuel args it tr s r :
  Signal_loop fuel args it tr s = Ok r → ids_issued s → follows s (final r).
Proof.
  revert it tr s. induction fuel as [|n IH]; intros it tr s.
  - destruct it; simpl; [done|]. intros [= <-]. apply follows_refl.
  - destruct it as [k|]; simpl; [|intros [= <-]; apply follows_refl].
    destruct (connections s !! k) as [c|]; [|done].
    intros Hr Hs. destruct (on c); [|by eapply IH].
    pose proof (run_follows (callback c args) s Hs) as Hf.
    destruct (run (callback c args) s) as [[|e] s']; simpl in Hf.
    + eapply follows_trans; [exact Hf|].
      eapply IH; [exact Hr|by eapply follows_ids_issued].
    + by injection Hr as <-.
Qed.

Lemma Signal_ids_issued fuel args s r :
  Signal fuel args s = Ok r → ids_issued s → ids_issued (final r).
Proof.
  unfold Signal. destruct (Cleanup s) as [s1|] eqn:E; [|done].
  intros Hr Hs. eapply follows_ids_issued, Signal_loop_follows; [exact Hr|].
  by eapply (Cleanup_ids_issued s s1).
Qed.

(** The calls of a pass are made in strictly ascending order of id. *)
Lemma Signal_loop_ascending fuel args it tr s r :
  Signal_loop fuel args it tr s = Ok r →
  StronglySorted Z.lt tr →
  (∀ k, it = Some k → Forall (λ i, i < k) tr) →
  StronglySorted Z.lt (invoked r).
Proof.
  revert it tr s. induction fuel as [|n IH]; intros it tr s.
  - destruct it; simpl; [done|]. by intros [= <-].
  - destruct it as [k|]; simpl; [|by intros [= <-]].
    destruct (connections s !! k) as [c|]; [|done].
    intros Hr Hs Hlt. specialize (Hlt k eq_refl).
    assert (StronglySorted Z.lt (tr ++ [k])) as Hs'.
    { apply StronglySorted_app_2; [|done|repeat constructor].
      intros x y Hx ->%list_elem_of_singleton.
      by eapply (proj1 (Forall_forall _ _)) in Hlt. }
    destruct (on c).
    + destruct (run (callback c args) s) as [[|e] s'].
      * eapply IH; [exact Hr|done|]. intros j (_ & Hkj & _)%map_next_Some.
        apply Forall_app. split; [|repeat constructor; lia].
        eapply Forall_impl; [exact Hlt|]. simpl. lia.
      * by injection Hr as <-.
    + eapply IH; [exact Hr|done|]. intros j (_ & Hkj & _)%map_next_Some.
      eapply Forall_impl; [exact Hlt|]. simpl. lia.
Qed.

(** An enabled key that the iterator has not passed is at or after it. *)
Lemma not_passed_next k i (m : gmap Z (EventConnection Args Exn)) :
  is_Some (m !! i) → (∀ j, map_next k m = Some j → i < j) → i ≤ k.
Proof.
  intros Hi Hbelow. destruct (map_next k m) as [j|] eqn:Ej.
  - specialize (Hbelow j eq_refl).
    apply map_next_Some in Ej as (_ & _ & Hmin).
    destruct (decide (i ≤ k)); [done|].
    assert (j ≤ i); [|lia]. apply Hmin; [done|lia].
  - by eapply map_next_None.
Qed.

(** Each entry that is enabled when a pass returns was called by it. *)
Lemma Signal_loop_calls_enabled fuel args it tr s r :
  Signal_loop fuel args it tr s = Ok r →
  ending r = Returned →
  ids_issued s →
  (∀ i c, connections s !! i = Some c → on c = true →
     (∀ k, it = Some k → i < k) → i ∈ tr) →
  ∀ i c, connections (final r) !! i = Some c → on c = true →
     i ∈ invoked r.
Proof.
  revert it tr s. induction fuel as [|n IH]; intros it tr s.
  - destruct it; simpl; [done|]. intros [= <-] _ _ Hinv i c Hc Hon. simpl in *.
    eapply Hinv; [done|done|]. by intros k.
  - destruct it as [k|]; simpl.
    2:{ intros [= <-] _ _ Hinv i c Hc Hon. simpl in *.
        eapply Hinv; [done|done|]. by intros k. }
    destruct (connections s !! k) as [ck|] eqn:Ek; [|done].
    intros Hr Hend Hw Hinv.
    destruct (on ck) eqn:Hck.
    + pose proof (run_follows (callback ck args) s Hw) as Hf.
      destruct (run (callback ck args) s) as [[|e] s'] eqn:Hrun;
        [|by injection Hr as <-]. simpl in Hf.
      destruct Hf as (Hn & Hold & Hnew & Hw').
      eapply IH; [exact Hr|done|done|].
      intros i c Hc Hon Hbelow. apply elem_of_app.
      assert (i ≤ k) as Hle.
      { apply (not_passed_next k i (connections s')); [rewrite Hc; eauto|].
        intros j Hj. by apply Hbelow. }
      destruct (decide (i = k)) as [->|Hik];
        [right; apply list_elem_of_here|left].
      destruct (connections s !! i) as [ci|] eqn:Ei.
      * destruct (Hold i ci Ei) as (c' & Hc' & _ & Hon').
        rewrite Hc in Hc'. injection Hc' as <-.
        eapply Hinv; [done|auto|]. intros ? [= <-]. lia.
      * exfalso.
        assert (nextId s ≤ i) by (apply Hnew; [done|rewrite Hc; eauto]).
        assert (k < nextId s) by (apply Hw; rewrite Ek; eauto). lia.
    + eapply IH; [exact Hr|done|done|].
      intros i c Hc Hon Hbelow.
      assert (i ≤ k) as Hle.
      { apply (not_passed_next k i (connections s)); [rewrite Hc; eauto|].
        intros j Hj. by apply Hbelow. }
      destruct (decide (i = k)) as [->|Hik]; [congruence|].
      eapply Hinv; [done|done|]. intros ? [= <-]. lia.
Qed.

(** A pass whose callbacks keep the flag ends with the flag set. *)
Lemma Signal_loop_keeps_signaled fuel args it tr s r :
  Signal_loop fuel args it tr s = Ok r →
  callbacks_keep_signaled s → signaled s = true →
  callbacks_keep_signaled (final r) ∧ signaled (final r) = true.
Proof.
  revert it tr s. induction fuel as [|n IH]; intros it tr s.
  - destruct it; simpl; [done|]. by intros [= <-].
  - destruct it as [k|]; simpl; [|by intros [= <-]].
    destruct (connections s !! k) as [c|] eqn:Ek; [|done].
    intros Hr Hk Hsig. destruct (on c).
    + pose proof (run_keeps_signaled (callback c args) s (Hk _ _ _ Ek) Hk Hsig)
        as Hrun.
      destruct (run (callback c args) s) as [[|e] s']; simpl in Hrun.
      * eapply IH; [exact Hr|tauto|tauto].
      * by injection Hr as <-.
    + by eapply IH.
Qed.

(** The loop run with fuel agrees with [advances]. *)
Lemma advances_Signal_loop args it tr s it' tr' s' :
  advances args it tr s it' tr' s' →
  ∃ n, ∀ fuel r,
    Signal_loop fuel args it' tr' s' = r → r ≠ OutOfFuel →
    Signal_loop (n + fuel) args it tr s = r.
Proof.
  induction 1 as [it tr s|k c tr s s' it' tr' s'' Hc Hon Hrun _ [n IH]
                  |k c tr s it' tr' s'' Hc Hon _ [n IH]].
  - by exists 0%nat.
  - exists (S n). intros fuel r Hr Hne. simpl. rewrite Hc, Hon, Hrun.
    by apply IH.
  - exists (S n). intros fuel r Hr Hne. simpl. rewrite Hc, Hon. by apply IH.
Qed.

Lemma advances_follows args it tr s it' tr' s' :
  advances args it tr s it' tr' s' → ids_issued s → follows s s'.
Proof.
  induction 1 as [it tr s|k c tr s s' it' tr' s'' Hc Hon Hrun _ IH
                  |k c tr s it' tr' s'' Hc Hon _ IH]; intros Hs.
  - by apply follows_refl.
  - pose proof (run_follows (callback c args) s Hs) as Hf.
    rewrite Hrun in Hf. simpl in Hf.
    eapply follows_trans; [exact Hf|]. eapply IH, follows_ids_issued, Hf.
  - by apply IH.
Qed.

Lemma advances_keeps_signaled args it tr s it' tr' s' :
  advances args it tr s it' tr' s' →
  callbacks_keep_signaled s → signaled s = true →
  callbacks_keep_signaled s' ∧ signaled s' = true.
Proof.
  induction 1 as [it tr s|k c tr s s' it' tr' s'' Hc Hon Hrun _ IH
                  |k c tr s it' tr' s'' Hc Hon _ IH]; intros Hk Hsig.
  - done.
  - pose proof (run_keeps_signaled (callback c args) s (Hk _ _ _ Hc) Hk Hsig)
      as Hkeep.
    rewrite Hrun in Hkeep. simpl in Hkeep. apply IH; tauto.
  - by apply IH.
Qed.

(** Conversely, a run of the loop that ends is an [advances] to the end
    of the map, or to an entry whose callback throws. *)
Lemma Signal_loop_advances fuel args it tr s r :
  Signal_loop fuel args it tr s = Ok r →
  match ending r with
  | Returned => advances args it tr s None (invoked r) (final r)
  | Threw e =>
      ∃ k c tr' sk,
        advances args it tr s (Some k) tr' sk ∧
        connections sk !! k = Some c ∧ on c = true ∧
        run (callback c args) sk = (Threw e, final r) ∧
        invoked r = tr' ++ [k]
  end.
Proof.
  revert it tr s. induction fuel as [|n IH]; intros it tr s.
  - destruct it; simpl; [done|]. intros [= <-]. simpl. constructor.
  - destruct it as [k|]; simpl; [|intros [= <-]; simpl; constructor].
    destruct (connections s !! k) as [c|] eqn:Ek; [|done].
    destruct (on c) eqn:Hon.
    + destruct (run (callback c args) s) as [[|e] s'] eqn:Hrun.
      * intros Hr. specialize (IH _ _ _ Hr). destruct (ending r).
        -- by eapply advances_call.
        -- destruct IH as (k' & c' & tr' & sk & Hadv & ?).
           exists k', c', tr', sk. split; [by eapply advances_call|done].
      * intros [= <-]. simpl. exists k, c, tr, s.
        split_and!; [constructor|done..].
    + intros Hr. specialize (IH _ _ _ Hr). destruct (ending r).
      * by eapply advances_skip.
      * destruct IH as (k' & c' & tr' & sk & Hadv & ?).
        exists k', c', tr', sk. split; [by eapply advances_skip|done].
Qed.

(** ** Callbacks that return and leave the event alone *)

Lemma rest_of_next k j s :
  is_Some (connections s !! k) → map_next k (connections s) = Some j →
  (size (rest_of j s) < size (rest_of k s))%nat.
Proof.
  intros Hk (Hj & Hlt & _)%map_next_Some. apply subset_size.
  apply elem_of_subset. split.
  - intros i [Hji Hi]%elem_of_filter. apply elem_of_filter. split; [lia|done].
  - intros Hsub. assert (k ∈ rest_of j s) as [Hjk _]%elem_of_filter; [|lia].
    apply Hsub, elem_of_filter. split; [lia|by apply elem_of_dom].
Qed.

Lemma rest_of_size k s : (size (rest_of k s) ≤ size (connections s))%nat.
Proof.
  rewrite <-size_dom. apply subseteq_size.
  intros i [_ Hi]%elem_of_filter. done.
Qed.

(** The loop then ends, leaves the event as it was, and calls exactly
    the enabled entries from the iterator on; it needs one unit of fuel
    for each key that is left. *)
Lemma Signal_loop_returning args s fuel k tr :
  callbacks_return args s →
  is_Some (connections s !! k) →
  (size (rest_of k s) ≤ fuel)%nat →
  ∃ tr', Signal_loop fuel args (Some k) tr s
         = Ok {| invoked := tr ++ tr'; ending := Returned; final := s |} ∧
         ∀ i, i ∈ tr' ↔
              k ≤ i ∧ ∃ c, connections s !! i = Some c ∧ on c = true.
Proof.
  intros Hret. revert k tr. induction fuel as [|n IH]; intros k tr Hk Hsz.
  { exfalso. assert (k ∈ rest_of k s) as Hin.
    { apply elem_of_filter. split; [lia|by apply elem_of_dom]. }
    assert (size (rest_of k s) = 0%nat) as H0%size_empty_inv by lia.
    rewrite H0 in Hin. by apply not_elem_of_empty in Hin. }
  destruct Hk as [c Hc]. simpl. rewrite Hc.
  assert (∀ tr0, ∃ tr',
           Signal_loop n args (map_next k (connections s)) tr0 s
           = Ok {| invoked := tr0 ++ tr'; ending := Returned; final := s |} ∧
           ∀ i, i ∈ tr' ↔
                k < i ∧ ∃ c, connections s !! i = Some c ∧ on c = true)
    as Hrest.
  { intros tr0. destruct (map_next k (connections s)) as [j|] eqn:Ej.
    - pose proof (rest_of_next k j s (ex_intro _ c Hc) Ej) as Hlt.
      pose proof Ej as (Hj & Hkj & Hmin)%map_next_Some.
      destruct (IH j tr0 Hj) as (tr' & Hrun & Hmem); [lia|].
      exists tr'. split; [done|]. intros i. rewrite Hmem. split.
      + intros [? ?]. split; [lia|done].
      + intros [Hki (ci & Hci & Hon)]. split; [|eauto].
        apply Hmin; [rewrite Hci; eauto|done].
    - exists []. rewrite Signal_loop_end, app_nil_r. split; [done|].
      intros i; split; [by intros ?%elem_of_nil|].
      intros [Hki (ci & Hci & _)]; exfalso.
      assert (i ≤ k); [|lia].
      eapply map_next_None; [done|rewrite Hci; eauto]. }
  destruct (on c) eqn:Hon.
  - rewrite (Hret k c Hc Hon). simpl.
    destruct (Hrest (tr ++ [k])) as (tr' & -> & Hmem).
    exists (k :: tr'). split; [by rewrite <-app_assoc|].
    intros i. rewrite elem_of_cons, Hmem. split.
    + intros [->|[? ?]]; [split; [lia|eauto]|split; [lia|done]].
    + intros [Hki Hi]. destruct (decide (i = k)); [by left|right].
      split; [lia|done].
  - destruct (Hrest tr) as (tr' & -> & Hmem). exists tr'. split; [done|].
    intros i. rewrite Hmem. split.
    + intros [? ?]. split; [lia|done].
    + intros [Hki (ci & Hci & Hi)]. split; [|eauto].
      destruct (decide (i = k)) as [->|]; [congruence|lia].
Qed.

(** ** Queued entries are in the map and switched off *)

Lemma Disconnect_queued_disabled i s :
  queued_disabled s → queued_disabled (Disconnect i s).
Proof.
  intros Hq. unfold Disconnect.
  destruct (connections s !! i) as [ci|] eqn:Ei; [|done].
  intros j. simpl. rewrite lookup_insert. case_decide as Hij.
  - intros _. eauto.
  - intros [Hj|Hj%list_elem_of_singleton]%elem_of_app; [by apply Hq|].
    congruence.
Qed.

Lemma Connect_queued_disabled cb s :
  ids_issued s → queued_disabled s → queued_disabled (Connect cb s).2.
Proof.
  intros Hs Hq j Hj. simpl in *. destruct (Hq j Hj) as (c & Hc & Hoff).
  exists c. split; [|done]. rewrite lookup_insert_ne; [done|].
  intros <-. assert (nextId s < nextId s); [|lia].
  apply Hs. rewrite Hc. eauto.
Qed.

Lemma run_queued_disabled p s :
  ids_issued s → queued_disabled s → queued_disabled (run p s).2.
Proof.
  revert s. induction p as [|e|cb IHcb k IHk|i k IHk|k IHk|k IHk|b k IHk];
    intros s Hs Hq; simpl; try done.
  - apply IHk; [apply (follows_ids_issued s), Connect_follows, Hs|].
    by apply Connect_queued_disabled.
  - apply IHk; [apply (follows_ids_issued s), Disconnect_follows, Hs|].
    by apply Disconnect_queued_disabled.
  - by apply IHk.
  - by apply IHk.
  - by apply IHk.
Qed.

Lemma Signal_loop_queued_disabled fuel args it tr s r :
  Signal_loop fuel args it tr s = Ok r →
  ids_issued s → queued_disabled s → queued_disabled (final r).
Proof.
  revert it tr s. induction fuel as [|n IH]; intros it tr s.
  - destruct it; simpl; [done|]. by intros [= <-].
  - destruct it as [k|]; simpl; [|by intros [= <-]].
    destruct (connections s !! k) as [c|] eqn:Ek; [|done].
    intros Hr Hs Hq. destruct (on c).
    + pose proof (run_follows (callback c args) s Hs) as Hf.
      pose proof (run_queued_disabled (callback c args) s Hs Hq) as Hq'.
      destruct (run (callback c args) s) as [[|e] s']; simpl in *.
      * eapply IH; [exact Hr|by eapply follows_ids_issued|done].
      * by injection Hr as <-.
    + by eapply IH.
Qed.

(** Whatever the queue held before, a pass that is defined leaves every
    queued id in the map and switched off. *)
Lemma Signal_queued_disabled fuel args s r :
  Signal fuel args s = Ok r → ids_issued s → queued_disabled (final r).
Proof.
  unfold Signal. destruct (Cleanup s) as [s1|] eqn:E; [|done].
  intros Hr Hs. eapply Signal_loop_queued_disabled; [exact Hr| |].
  - by eapply (Cleanup_ids_issued s s1).
  - apply Cleanup_Some in E as (_ & _ & Hq & _).
    intros j. simpl. rewrite Hq. by intros ?%elem_of_nil.
Qed.

(** ** Handles *)

(** Destroying a live handle is [Disconnect] of its id on its event. *)
Lemma Connection_dtor_Disconnect (c : Connection) (e : loc) h :
  event c = Some e → 0 ≤ id c →
  snd <$> Connection_dtor c h = Disconnect_at e (id c) h.
Proof.
  intros He Hid. unfold Connection_dtor. rewrite He.
  rewrite bool_decide_eq_true_2 by done.
  by destruct (Disconnect_at e (id c) h).
Qed.

(** ** The claims *)

(** X16.  [Disconnect] by cases on its [find]: an id that is not in the
    map is ignored; for one that is, the entry is switched off and its
    iterator queued, whatever [on] was; so [Disconnect] leaves the event
    as it is exactly when the id is not in the map. *)
Theorem Disconnect_changes_iff_present i s :
  (connections s !! i = None → Disconnect i s = s) ∧
  (∀ c, connections s !! i = Some c →
     Disconnect i s =
       {| signaled := signaled s;
          connections :=
            <[i := {| on := false; callback := callback c |}]> (connections s);
          connectionsToRemove := connectionsToRemove s ++ [i];
          nextId := nextId s |}) ∧
  (Disconnect i s = s ↔ connections s !! i = None).
Proof.
  split_and!.
  - apply Disconnect_absent.
  - apply Disconnect_present.
  - split; [|apply Disconnect_absent].
    destruct (connections s !! i) as [c|] eqn:E; [|done].
    rewrite (Disconnect_present i s c E). intros H.
    apply (f_equal (length ∘ connectionsToRemove)) in H. simpl in H.
    rewrite length_app in H. simpl in H. lia.
Qed.

(** X15.  Where the invariant of the specification is kept.  That every
    queued id is a key of the map and its entry is switched off holds in
    a new event and is kept by [Connect] (for ids handed out by the
    counter), by [Disconnect] and by every [Signal] that is defined.
    That the queue has no id twice is kept by [Connect], and by
    [Disconnect] of an id that is absent or enabled; from a state with
    the whole invariant [Cleanup] is defined and gives it back. *)
Theorem queued_entries_stay_disabled :
  spec_invariant (@EventT_ctor Args Exn) ∧
  (∀ cb s,
     ids_issued s → queued_disabled s → queued_disabled (Connect cb s).2) ∧
  (∀ cb s,
     NoDup (connectionsToRemove s) →
     NoDup (connectionsToRemove (Connect cb s).2)) ∧
  (∀ i s, queued_disabled s → queued_disabled (Disconnect i s)) ∧
  (∀ i s,
     spec_invariant s →
     (∀ c, connections s !! i = Some c → on c = true) →
     spec_invariant (Disconnect i s)) ∧
  (∀ s, spec_invariant s → ∃ s1, Cleanup s = Some s1 ∧ spec_invariant s1) ∧
  (∀ fuel args s r,
     ids_issued s → Signal fuel args s = Ok r → queued_disabled (final r)).
Proof.
  split_and!.
  - split; [constructor|]. by intros i ?%elem_of_nil.
  - apply Connect_queued_disabled.
  - done.
  - apply Disconnect_queued_disabled.
  - intros i s [Hnd Hq] Hon. split; [|by apply Disconnect_queued_disabled].
    unfold Disconnect. destruct (connections s !! i) as [c|] eqn:E; [|done].
    simpl. apply NoDup_app. split_and!; [done| |apply NoDup_singleton].
    intros j Hj ->%list_elem_of_singleton.
    destruct (Hq i Hj) as (c' & Hc' & Hoff).
    rewrite E in Hc'. injection Hc' as <-.
    specialize (Hon c eq_refl). congruence.
  - intros s [Hnd Hq].
    destruct (erase_all_is_Some (connectionsToRemove s) (connections s))
      as [m Hm]; [done| |].
    { intros i Hi. destruct (Hq i Hi) as (c & -> & _). eauto. }
    eexists. unfold Cleanup. rewrite Hm. simpl. split; [done|].
    split; [constructor|]. by intros i ?%elem_of_nil.
  - intros fuel args s r Hs Hr. by eapply Signal_queued_disabled.
Qed.

(** C4, as the code has it.  Destroying a handle is defined when the
    handle is inert (null pointer or negative id: nothing is accessed,
    whether its event is alive or not) and when its event is alive: the
    destructor then calls [Disconnect] of its id, which changes nothing
    when the id is no longer in the map, and leaves the handle inert.
    The destructor tests the pointer for null and the id for sign, not
    the event for life: a handle that is not inert and whose event is
    gone makes it follow a dangling pointer.  Destroying an event clears
    its map and removes the event; the handles are not told. *)
Theorem Connection_dtor_needs_live_event (c : Connection) h :
  (event c = None ∨ id c < 0 → Connection_dtor c h = Some (c, h)) ∧
  (∀ e s, event c = Some e → 0 ≤ id c → h !! e = Some s →
     Connection_dtor c h
     = Some ({| event := None; id := -1 |}, <[e := Disconnect (id c) s]> h) ∧
     (connections s !! id c = None → <[e := Disconnect (id c) s]> h = h)) ∧
  (∀ e, event c = Some e → 0 ≤ id c → h !! e = None →
     Connection_dtor c h = None) ∧
  (∀ e s, h !! e = Some s →
     connections (EventT_dtor s) = ∅ ∧
     ∃ h', delete_at e h = Some h' ∧ h' !! e = None).
Proof.
  split_and!.
  - unfold Connection_dtor. intros [->|Hneg]; [done|].
    destruct (event c); [|done]. by rewrite bool_decide_eq_false_2 by lia.
  - intros e s He Hid Hs. split.
    + unfold Connection_dtor, Disconnect_at. rewrite He, Hs. simpl.
      by rewrite bool_decide_eq_true_2 by done.
    + intros Habs. rewrite Disconnect_absent by done. by apply insert_id.
  - intros e He Hid Hs. unfold Connection_dtor, Disconnect_at.
    rewrite He, Hs. simpl. by rewrite bool_decide_eq_true_2 by done.
  - intros e s Hs. split; [done|]. unfold delete_at. rewrite Hs. simpl.
    eexists. split; [done|]. apply lookup_delete_eq.
Qed.

(** C5, as the code has it.  [Signal] iterates the map itself, not a
    snapshot of it: every entry that is enabled when a pass returns was
    called by that pass, and that includes the entries a callback
    connected while the pass was running, whose ids lie above every id
    in the map and so ahead of the iterator. *)
Theorem Signal_calls_enabled_at_return fuel args s r :
  ids_issued s →
  Signal fuel args s = Ok r →
  ending r = Returned →
  ∀ i c, connections (final r) !! i = Some c → on c = true → i ∈ invoked r.
Proof.
  intros Hs Hr Hend. unfold Signal in Hr.
  destruct (Cleanup s) as [s1|] eqn:E; [|done].
  pose proof (Cleanup_ids_issued s s1 E Hs) as Hs1.
  eapply Signal_loop_calls_enabled; [exact Hr|done|done|].
  intros i c Hc Hon Hbelow. exfalso. simpl in *.
  destruct (map_begin (connections s1)) as [k|] eqn:Ek.
  - apply map_begin_Some in Ek as [_ Hmin].
    assert (k ≤ i) by (apply Hmin; rewrite Hc; eauto).
    specialize (Hbelow k eq_refl). lia.
  - apply map_begin_None in Ek. rewrite Ek in Hc. by rewrite lookup_empty in Hc.
Qed.

(** C6, as the code has it.  The flag is false in a new event; [Connect],
    [Disconnect] and [Cleanup] leave it as it is; [Signal] sets it after
    [Cleanup] and before the first callback, and a pass whose callbacks do
    not call [SetSignaled(false)] ends with it set, thrown exception or
    not.  [SetSignaled], a public member, sets it to its argument. *)
Theorem signaled_reset_only_by_SetSignaled :
  Signaled (@EventT_ctor Args Exn) = false ∧
  (∀ s cb, Signaled (Connect cb s).2 = Signaled s) ∧
  (∀ s i, Signaled (Disconnect i s) = Signaled s) ∧
  (∀ s s1, Cleanup s = Some s1 → Signaled s1 = Signaled s) ∧
  (∀ s b, Signaled (SetSignaled b s) = b) ∧
  (∀ s s1 fuel args, Cleanup s = Some s1 →
     Signaled (SetSignaled true s1) = true ∧
     Signal fuel args s
     = Signal_loop fuel args (map_begin (connections s1)) []
         (SetSignaled true s1)) ∧
  (∀ s fuel args r,
     callbacks_keep_signaled s → Signal fuel args s = Ok r →
     Signaled (final r) = true).
Proof.
  split_and!; try done.
  - intros s i. unfold Disconnect. by destruct (connections s !! i).
  - by intros s s1 (? & _)%Cleanup_Some.
  - intros s s1 fuel args E. split; [done|by apply Signal_unfold].
  - intros s fuel args r Hk Hr. unfold Signal in Hr.
    destruct (Cleanup s) as [s1|] eqn:E; [|done].
    eapply Signal_loop_keeps_signaled; [exact Hr| |done].
    by eapply (Cleanup_keeps_signaled s s1).
Qed.

(** C7.  When the pass has come to an enabled entry [k], having called
    [tr] before, and the callback of [k] throws [e] leaving the event as
    [s'], then [Signal] ends with [e]; its calls are those of [tr] and
    that of [k], none after; and the event is [s'], the state at the
    throw, with what the earlier callbacks did to it: the entries
    [Cleanup] erased are still erased, and the flag is set unless a
    callback has reset it itself. *)
Theorem Signal_propagates_exception args s s1 k c tr sk (e : Exn) s' :
  Cleanup s = Some s1 →
  advances args (map_begin (connections s1)) [] (SetSignaled true s1)
    (Some k) tr sk →
  connections sk !! k = Some c → on c = true →
  run (callback c args) sk = (Threw e, s') →
  (∃ fuel0, ∀ fuel, (fuel0 ≤ fuel)%nat →
     Signal fuel args s
     = Ok {| invoked := tr ++ [k]; ending := Threw e; final := s' |}) ∧
  (ids_issued s →
   ∀ i, i ∈ connectionsToRemove s → connections s' !! i = None) ∧
  (callbacks_keep_signaled s → Signaled s' = true).
Proof.
  intros E Hadv Hc Hon Hrun. split_and!.
  - destruct (advances_Signal_loop _ _ _ _ _ _ _ Hadv) as [n Hn].
    exists (n + 1)%nat. intros fuel Hfuel.
    rewrite (Signal_unfold _ _ _ _ E).
    replace fuel with (n + S (fuel - n - 1))%nat by lia.
    apply Hn; [|done]. by eapply Signal_loop_throw.
  - intros Hs i Hi.
    pose proof (Cleanup_ids_issued s s1 E Hs) as Hs1.
    assert (follows (SetSignaled true s1) s') as (_ & _ & Hnew & _).
    { eapply follows_trans; [by eapply advances_follows|].
      pose proof (run_follows (callback c args) sk) as Hf.
      rewrite Hrun in Hf. apply Hf.
      eapply follows_ids_issued. by eapply advances_follows. }
    apply Cleanup_Some in E as (_ & Hn & _ & E).
    apply erase_all_Some in E as (_ & Hin & Hgone & _).
    destruct (connections s' !! i) as [ci|] eqn:Ei; [|done]. exfalso.
    assert (nextId s1 ≤ i) as Hle.
    { apply Hnew; [by apply Hgone|]. rewrite Ei. eauto. }
    assert (i < nextId s) by (by apply Hs, Hin). lia.
  - intros Hk.
    pose proof (Cleanup_keeps_signaled s s1 E Hk) as Hk1.
    destruct (advances_keeps_signaled _ _ _ _ _ _ _ Hadv Hk1 eq_refl)
      as [Hkk Hsig].
    pose proof (run_keeps_signaled (callback c args) sk (Hkk _ _ _ Hc) Hkk Hsig)
      as Hkeep.
    rewrite Hrun in Hkeep. apply Hkeep.
Qed.

(** With such callbacks [Signal] is defined as soon as [Cleanup] is,
    needs one unit of fuel for each entry, and calls the enabled entries
    that [Cleanup] left, each once, in ascending order. *)
Lemma Signal_returning args s s1 :
  Cleanup s = Some s1 → callbacks_return args s1 →
  ∃ l, (∀ fuel, (size (connections s1) ≤ fuel)%nat →
          Signal fuel args s
          = Ok {| invoked := l; ending := Returned;
                  final := SetSignaled true s1 |}) ∧
       StronglySorted Z.lt l ∧
       ∀ i, i ∈ l ↔ ∃ c, connections s1 !! i = Some c ∧ on c = true.
Proof.
  intros E Hret. set (s2 := SetSignaled true s1).
  assert (callbacks_return args s2) as Hret2 by done.
  destruct (map_begin (connections s1)) as [k|] eqn:Ek.
  - pose proof Ek as [Hk Hmin]%map_begin_Some.
    destruct (Signal_loop_returning args s2 (size (connections s1)) k []
                Hret2 Hk (rest_of_size k s2)) as (l & Hrun & Hmem).
    exists l. split_and!.
    + intros fuel Hfuel. rewrite (Signal_unfold _ _ _ _ E), Ek.
      eapply Signal_loop_fuel_mono; [exact Hrun|done|done].
    + eapply Signal_loop_ascending in Hrun; [done|constructor|].
      by intros ? _.
    + intros i. rewrite Hmem. split; [by intros [_ ?]|].
      intros (c & Hc & Hon). split; [|eauto].
      apply Hmin. rewrite Hc. eauto.
  - exists []. split_and!.
    + intros fuel _. rewrite (Signal_unfold _ _ _ _ E), Ek.
      apply Signal_loop_end.
    + constructor.
    + intros i. split; [by intros ?%elem_of_nil|].
      intros (c & Hc & _). apply map_begin_None in Ek.
      rewrite Ek in Hc. by rewrite lookup_empty in Hc.
Qed.

(** C8.  A pass runs the callbacks of the connections in ascending order
    of id.  The ids of the calls of a pass ascend, whatever the callbacks
    do, and a pass that ends is the run of the callbacks themselves: from
    the first entry of the map after [Cleanup], each enabled entry reached
    has its callback run on the event as the one before left it, up to
    the end of the map or to the callback that throws, and the event the
    pass leaves is the one the last callback run left.  An id handed out
    by [Connect] is above every id in the map, so that this is the order
    of connection; with callbacks that return and leave the event alone
    the pass calls exactly the enabled entries.  For [f1] connected before
    [f2] on a new event, with callbacks that leave the map alone,
    [Signal(a)] runs [f1 a] and then, on the event that [f1 a] left,
    [f2 a], and leaves the event that [f2 a] left; after [Disconnect] of
    the id of [f1], [Signal(b)] erases that entry and runs [f2 b] only. *)
Theorem Signal_ascending_id_order :
  (∀ fuel args s r,
     Signal fuel args s = Ok r → StronglySorted Z.lt (invoked r)) ∧
  (∀ fuel args s r,
     Signal fuel args s = Ok r →
     ∃ s1, Cleanup s = Some s1 ∧
       match ending r with
       | Returned =>
           advances args (map_begin (connections s1)) []
             (SetSignaled true s1) None (invoked r) (final r)
       | Threw e =>
           ∃ k c tr sk,
             advances args (map_begin (connections s1)) []
               (SetSignaled true s1) (Some k) tr sk ∧
             connections sk !! k = Some c ∧ on c = true ∧
             run (callback c args) sk = (Threw e, final r) ∧
             invoked r = tr ++ [k]
       end) ∧
  (∀ cb s i,
     ids_issued s → is_Some (connections s !! i) → i < (Connect cb s).1) ∧
  (∀ args s s1,
     Cleanup s = Some s1 → callbacks_return args s1 →
     ∃ l, (∀ fuel, (size (connections s1) ≤ fuel)%nat →
             Signal fuel args s
             = Ok {| invoked := l; ending := Returned;
                     final := SetSignaled true s1 |}) ∧
          StronglySorted Z.lt l ∧
          ∀ i, i ∈ l ↔ ∃ c, connections s1 !! i = Some c ∧ on c = true) ∧
  (∀ (f1 f2 : CallbackT Args Exn) (a b : Args) sA sB sD,
     let '(i1, s1) := Connect f1 EventT_ctor in
     let '(i2, s2) := Connect f2 s1 in
     run (f1 a) (SetSignaled true s2) = (Returned, sA) →
     connections sA = connections s2 →
     run (f2 a) sA = (Returned, sB) →
     connections sB = connections s2 →
     connectionsToRemove sB = [] →
     run (f2 b)
       (SetSignaled true
          {| signaled := signaled sB;
             connections := delete i1 (connections sB);
             connectionsToRemove := [];
             nextId := nextId sB |}) = (Returned, sD) →
     connections sD = delete i1 (connections sB) →
     i1 < i2 ∧
     (∀ fuel, (2 ≤ fuel)%nat →
        Signal fuel a s2
        = Ok {| invoked := [i1; i2]; ending := Returned; final := sB |}) ∧
     (∀ fuel, (1 ≤ fuel)%nat →
        Signal fuel b (Disconnect i1 sB)
        = Ok {| invoked := [i2]; ending := Returned; final := sD |})).
Proof.
  split_and!.
  - intros fuel args s r. unfold Signal. destruct (Cleanup s); [|done].
    intros Hr. eapply Signal_loop_ascending; [exact Hr|constructor|].
    by intros ? _.
  - intros fuel args s r Hr. unfold Signal in Hr.
    destruct (Cleanup s) as [s1|]; [|done]. exists s1. split; [done|].
    by apply Signal_loop_advances in Hr.
  - intros cb s i Hs Hi. by apply Hs.
  - apply Signal_returning.
  - intros f1 f2 a b sA sB sD. simpl.
    intros HA HcA HB HcB HqB HD HcD. split; [lia|]. split.
    + intros fuel Hfuel. eapply (Signal_fuel_mono 2); [|done|done].
      erewrite Signal_unfold by reflexivity.
      change (map_begin _) with (Some 0).
      erewrite Signal_loop_call; [|reflexivity|reflexivity|exact HA].
      rewrite HcA. change (map_next _ _) with (Some 1).
      erewrite Signal_loop_call;
        [|rewrite HcA; reflexivity|reflexivity|exact HB].
      rewrite HcB. change (map_next _ _) with (@None Z). reflexivity.
    + intros fuel Hfuel. eapply (Signal_fuel_mono 1); [|done|done].
      assert (Cleanup (Disconnect 0 sB)
              = Some {| signaled := signaled sB;
                        connections := delete 0 (connections sB);
                        connectionsToRemove := [];
                        nextId := nextId sB |}) as E.
      { assert (connections sB !! 0 = Some {| on := true; callback := f1 |})
          as E0 by (by rewrite HcB).
        unfold Disconnect, Cleanup. rewrite E0. simpl. rewrite HqB. simpl.
        rewrite lookup_insert_eq. simpl. by rewrite delete_insert_eq. }
      rewrite (Signal_unfold _ _ _ _ E). simpl connections at 1.
      replace (map_begin (delete 0 (connections sB))) with (Some 1)
        by (by rewrite HcB).
      erewrite Signal_loop_call;
        [|simpl; rewrite HcB; reflexivity|reflexivity|exact HD].
      rewrite HcD, HcB. change (map_next _ _) with (@None Z). reflexivity.
Qed.

(** C9.  [ConnectionCount] is the size of the map, as an [unsigned int],
    that is the size itself below 2^32: [Disconnect] does not change it,
    and a [Cleanup] that is defined takes one entry off for each queued
    id.  From a new event it is 1
    after one [Connect], still 1 after [Disconnect] of that id, and 0
    after the next [Signal], which calls nothing. *)
Theorem ConnectionCount_counts_pending :
  (∀ s, ConnectionCount s = Z.of_nat (size (connections s)) mod 2 ^ 32) ∧
  (∀ s, Z.of_nat (size (connections s)) < 2 ^ 32 →
     ConnectionCount s = Z.of_nat (size (connections s))) ∧
  (∀ s i, ConnectionCount (Disconnect i s) = ConnectionCount s) ∧
  (∀ s s1, Cleanup s = Some s1 →
     (size (connections s1) + length (connectionsToRemove s)
      = size (connections s))%nat) ∧
  (∀ (cb : CallbackT Args Exn) (args : Args) (fuel : nat),
     let '(i, s1) := Connect cb EventT_ctor in
     ConnectionCount s1 = 1 ∧
     ConnectionCount (Disconnect i s1) = 1 ∧
     ∃ r, Signal fuel args (Disconnect i s1) = Ok r ∧
          invoked r = [] ∧ ending r = Returned ∧
          ConnectionCount (final r) = 0).
Proof.
  split_and!.
  - done.
  - intros s Hlt. unfold ConnectionCount. apply Z.mod_small. lia.
  - intros s i. unfold ConnectionCount. by rewrite Disconnect_size.
  - intros s s1 (_ & _ & _ & E)%Cleanup_Some.
    by apply erase_all_Some in E as (_ & _ & _ & _ & ?).
  - intros cb args fuel. simpl. split_and!; [done|done|].
    eexists. split.
    + erewrite Signal_unfold by reflexivity.
      change (map_begin _) with (@None Z). apply Signal_loop_end.
    + done.
Qed.

(** C10.  The destructor of a handle returns with the handle and every
    event as they were exactly when the pointer is null or the id is
    negative; no event is looked at then, alive or not.  In every other
    case the pointer is not null and the id is not negative. *)
Theorem Connection_dtor_inert_iff (c : Connection) h :
  Connection_dtor c h = Some (c, h) ↔ event c = None ∨ id c < 0.
Proof.
  unfold Connection_dtor. destruct c as [[e|] i]; simpl.
  - case_bool_decide as Hi.
    + split; [|intros [?|?]; [done|lia]].
      by destruct (Disconnect_at e i h).
    + split; [right; lia|done].
  - split; [by left|done].
Qed.

End properties.

(** ** The claims on events of signature [void(int)] *)

(** C1.  What the code does when a connection is revoked twice.  The
    handle of a new connection, destroyed while its event is alive, does
    what [Disconnect] of its id does, and a pass can follow.  Calling
    [Disconnect] and destroying the handle, in either order, queues the
    iterator of the entry twice; the event is not the one a single
    revocation leaves, and the [Cleanup] of the next [Signal] erases
    through the same iterator twice. *)
Theorem double_revocation_queues_twice :
  ∃ c h1,
    Connect_at 1%positive quiet one_event = Some (c, h1) ∧
    (∃ c' h2 s2,
       Connection_dtor c h1 = Some (c', h2) ∧
       Disconnect_at 1%positive (Id c) h1 = Some h2 ∧
       h2 !! 1%positive = Some s2 ∧
       connectionsToRemove s2 = [0] ∧
       ∃ r, Signal 0 5 s2 = Ok r) ∧
    (∃ h2 c' h3 s3,
       Disconnect_at 1%positive (Id c) h1 = Some h2 ∧
       Connection_dtor c h2 = Some (c', h3) ∧
       h3 !! 1%positive = Some s3 ∧
       connectionsToRemove s3 = [0; 0] ∧
       ∀ fuel args, Signal fuel args s3 = Undef) ∧
    (∃ c' h2 h3 s3,
       Connection_dtor c h1 = Some (c', h2) ∧
       Disconnect_at 1%positive (Id c) h2 = Some h3 ∧
       h3 !! 1%positive = Some s3 ∧
       connectionsToRemove s3 = [0; 0] ∧
       ∀ fuel args, Signal fuel args s3 = Undef).
Proof.
  do 2 eexists. split; [reflexivity|]. split_and!.
  - do 3 eexists. split_and!; [reflexivity..|]. by eexists.
  - do 4 eexists. split_and!; [reflexivity..|]. by intros fuel args.
  - do 4 eexists. split_and!; [reflexivity..|]. by intros fuel args.
Qed.

(** C2.  What the code does on [Disconnect] of an id whose entry is
    already switched off, which is to change nothing.  [Disconnect] tests
    that the id is in the map and never reads [on]: after one
    [Disconnect(0)] the entry is off and queued once and the next
    [Cleanup] erases it; a second [Disconnect(0)] does not leave the
    event as it is but queues the iterator of the entry again, and the
    [Cleanup] of the next [Signal] erases through the same iterator
    twice. *)
Theorem Disconnect_requeues_disabled :
  on <$> connections one_revoked !! 0 = Some false ∧
  connectionsToRemove one_revoked = [0] ∧
  (∃ s, Cleanup one_revoked = Some s ∧ connections s = ∅) ∧
  Disconnect 0 one_revoked ≠ one_revoked ∧
  connectionsToRemove (Disconnect 0 one_revoked) = [0; 0] ∧
  Cleanup (Disconnect 0 one_revoked) = None ∧
  (∀ fuel args, Signal fuel args (Disconnect 0 one_revoked) = Undef).
Proof.
  split_and!; [done|done|by eexists| |done|done|done].
  intros H. by apply (f_equal connectionsToRemove) in H.
Qed.

(** C3.  What the code does to the invariant of the specification.  It
    holds in a new event, after [Connect] and after one [Disconnect] of
    the connection, and the [Cleanup] of the next [Signal] is then
    defined and gives it back.  A second [Disconnect] of the same id
    breaks it: the queued ids are still keys of entries switched off, but
    the id is in the queue twice, and the [Cleanup] of the next [Signal]
    erases through the same iterator twice. *)
Theorem Disconnect_breaks_spec_invariant :
  spec_invariant (@EventT_ctor Z string) ∧
  spec_invariant one_connection ∧
  spec_invariant one_revoked ∧
  (∃ s, Cleanup one_revoked = Some s ∧ spec_invariant s) ∧
  ¬ spec_invariant (Disconnect 0 one_revoked) ∧
  ¬ NoDup (connectionsToRemove (Disconnect 0 one_revoked)) ∧
  queued_disabled (Disconnect 0 one_revoked) ∧
  Cleanup (Disconnect 0 one_revoked) = None ∧
  (∀ fuel args, Signal fuel args (Disconnect 0 one_revoked) = Undef).
Proof.
  assert (¬ NoDup (connectionsToRemove (Disconnect 0 one_revoked))) as Hdup.
  { intros Hnd. apply NoDup_cons in Hnd as [Hnotin _].
    apply Hnotin, list_elem_of_here. }
  assert (∀ s : EventT Z string,
            connectionsToRemove s = [] → spec_invariant s) as Hempty.
  { intros s Hs. unfold spec_invariant, queued_disabled. rewrite Hs.
    split; [constructor|]. by intros i ?%elem_of_nil. }
  split_and!; [by apply Hempty..| | | |exact Hdup| |done|done].
  - split; [apply NoDup_singleton|].
    intros i ->%list_elem_of_singleton. by eexists.
  - eexists. split; [reflexivity|]. by apply Hempty.
  - by intros [Hnd _].
  - intros i Hi. exists {| on := false; callback := quiet |}.
    split; [|done].
    change (connectionsToRemove (Disconnect 0 one_revoked)) with [0; 0] in Hi.
    apply elem_of_cons in Hi as [->|Hi]; [done|].
    by apply list_elem_of_singleton in Hi as ->.
Qed.

(** C4 as stated fails: a handle destroyed after its event follows the
    pointer to the event that is gone. *)
Lemma dangling_handle_undefined :
  ∃ c h1 h2,
    Connect_at 1%positive quiet one_event = Some (c, h1) ∧
    delete_at 1%positive h1 = Some h2 ∧
    event c = Some 1%positive ∧ 0 ≤ Id c ∧
    Connection_dtor c h2 = None.
Proof. do 3 eexists. split_and!; [reflexivity..|done|reflexivity]. Qed.

(** A handle whose event is alive, and whose id is no longer in the map,
    is destroyed without changing the event. *)
Lemma Connection_dtor_live_witness :
  Connection_dtor {| event := Some 1%positive; id := 7 |} one_event
  = Some ({| event := None; id := -1 |}, one_event).
Proof.
  destruct (Connection_dtor_needs_live_event (Args := Z) (Exn := string)
              {| event := Some 1%positive; id := 7 |} one_event)
    as (_ & Hlive & _).
  destruct (Hlive 1%positive EventT_ctor eq_refl ltac:(done) eq_refl)
    as [-> ->]; reflexivity.
Defined.

(** C5 as stated fails: the connection that the callback of id 0 makes
    during the pass, of id 1, is called by that same pass. *)
Lemma connect_in_flight_is_called :
  ∃ r, Signal 2 5 connecting_event = Ok r ∧
       connections connecting_event !! 1 = None ∧
       invoked r = [0; 1].
Proof. eexists. split_and!; reflexivity. Qed.

(** The connection made in flight is enabled when the pass returns, and
    the pass has called it. *)
Lemma Signal_calls_enabled_witness :
  ∃ r, Signal 2 5 connecting_event = Ok r ∧
       connections connecting_event !! 1 = None ∧
       1 ∈ invoked r.
Proof.
  eexists. split; [reflexivity|]. split; [reflexivity|].
  eapply (Signal_calls_enabled_at_return 2 5 connecting_event).
  - apply (follows_ids_issued EventT_ctor), Connect_follows, ids_issued_ctor.
  - reflexivity.
  - reflexivity.
  - reflexivity.
  - reflexivity.
Defined.

(** C6 as stated fails: [SetSignaled(false)] resets the flag that a pass
    has set. *)
Lemma SetSignaled_false_resets :
  ∃ r, Signal 0 5 (@EventT_ctor Z string) = Ok r ∧
       Signaled (final r) = true ∧
       Signaled (SetSignaled false (final r)) = false.
Proof. eexists. split_and!; reflexivity. Qed.

(** The callback of [one_connection] does not touch the flag. *)
Lemma one_connection_keeps_signaled : callbacks_keep_signaled one_connection.
Proof.
  intros i c a. unfold one_connection. simpl.
  intros [[_ <-]|[_ H]]%lookup_insert_Some; [constructor|].
  by rewrite lookup_empty in H.
Qed.

(** A pass over [one_connection] ends with the flag set. *)
Lemma signaled_after_Signal_witness :
  ∃ r, Signal 1 5 one_connection = Ok r ∧ Signaled (final r) = true.
Proof.
  eexists. split; [reflexivity|].
  destruct (signaled_reset_only_by_SetSignaled (Args := Z) (Exn := string))
    as (_ & _ & _ & _ & _ & _ & Hpass).
  eapply (Hpass one_connection 1%nat 5).
  - apply one_connection_keeps_signaled.
  - reflexivity.
Defined.

(** A pass over [four_connections]: [Cleanup] erases 0, the callback of
    1 disconnects 3, that of 2 throws; the pass ends with that exception,
    3 is not called, and the event keeps the erasure, the flag and the
    switched-off entry 3. *)
Lemma Signal_propagates_exception_witness :
  ∃ r, (∃ fuel0, ∀ fuel, (fuel0 ≤ fuel)%nat →
          Signal fuel 5 four_connections = Ok r) ∧
       invoked r = [1; 2] ∧ ending r = Threw "boom" ∧
       Signaled (final r) = true ∧
       connections (final r) !! 0 = None ∧
       on <$> connections (final r) !! 3 = Some false.
Proof.
  eexists. split.
  - refine (proj1 (Signal_propagates_exception 5 four_connections _ 2 _ [1] _
                     "boom" _ _ _ _ _ _)).
    + reflexivity.
    + change (map_begin _) with (Some 1).
      eapply advances_call; [reflexivity..|].
      change (map_next _ _) with (Some 2). apply advances_here.
    + reflexivity.
    + reflexivity.
    + reflexivity.
  - split_and!; reflexivity.
Defined.

(** [clears_on_5] connected before [checks_on_5]: [Signal(5)] runs the
    first, which clears the flag, then the second, which finds it
    cleared and returns; after [Disconnect(0)], [Signal(7)] runs the
    second only, which clears the flag, and not the first, which would
    throw. *)
Lemma Signal_two_connections_witness :
  ∃ sB sD,
    (∀ fuel, (2 ≤ fuel)%nat →
       Signal fuel 5
         (Connect checks_on_5 (Connect clears_on_5 EventT_ctor).2).2
       = Ok {| invoked := [0; 1]; ending := Returned; final := sB |}) ∧
    Signaled sB = false ∧
    (∀ fuel, (1 ≤ fuel)%nat →
       Signal fuel 7 (Disconnect 0 sB)
       = Ok {| invoked := [1]; ending := Returned; final := sD |}) ∧
    Signaled sD = false.
Proof.
  destruct (Signal_ascending_id_order (Args := Z) (Exn := string))
    as (_ & _ & _ & _ & Hscenario).
  do 2 eexists.
  edestruct (Hscenario clears_on_5 checks_on_5 5 7) as (_ & H5 & H7);
    [reflexivity..|].
  split; [exact H5|]. split; [reflexivity|]. split; [exact H7|reflexivity].
Defined.

(** The count is 1 after [Connect], 1 after [Disconnect(0)], 0 after the
    next [Signal]. *)
Lemma ConnectionCount_scenario_witness :
  ConnectionCount one_connection = 1 ∧
  ConnectionCount one_revoked = 1 ∧
  ∃ r, Signal 0 5 one_revoked = Ok r ∧
       invoked r = [] ∧ ending r = Returned ∧ ConnectionCount (final r) = 0.
Proof.
  destruct (ConnectionCount_counts_pending (Args := Z) (Exn := string))
    as (_ & _ & _ & _ & Hscenario).
  exact (Hscenario quiet 5 0%nat).
Defined.

(** A handle with a negative id is destroyed without a look at the event
    its pointer names, here one that does not exist. *)
Lemma Connection_dtor_inert_witness :
  Connection_dtor {| event := Some 1%positive; id := -1 |}
    (∅ : store Z string)
  = Some ({| event := Some 1%positive; id := -1 |}, ∅).
Proof.
  apply Connection_dtor_inert_iff. right. done.
Defined.

(** * More properties of Event.hh *)

(** ** Erasing a queue of iterators *)

Section erasing.
Context {V : Type}.
Implicit Types (m : gmap Z V) (q : list Z).

Lemma erase_all_app q1 q2 m :
  erase_all (q1 ++ q2) m = erase_all q1 m ≫= erase_all q2.
Proof.
  revert m. induction q1 as [|a q1 IH]; intros m; simpl; [done|].
  by destruct (m !! a).
Qed.

(** The erasures do not see an entry that is not queued. *)
Lemma erase_all_insert q i v m :
  i ∉ q → erase_all q (<[i:=v]> m) = insert i v <$> erase_all q m.
Proof.
  revert m. induction q as [|a q IH]; intros m Hi; simpl; [done|].
  apply not_elem_of_cons in Hi as [Hia Hi].
  rewrite lookup_insert_ne by done. destruct (m !! a); [|done].
  rewrite delete_insert_ne by done. by apply IH.
Qed.

(** The order of the queue does not matter. *)
Lemma erase_all_Permutation q q' m :
  q ≡ₚ q' → erase_all q m = erase_all q' m.
Proof.
  intros Hp. revert m.
  induction Hp as [|x q q' _ IH|x y q|q q' q'' _ IH1 _ IH2]; intros m; simpl.
  - done.
  - by destruct (m !! x).
  - destruct (decide (x = y)) as [->|Hne]; [done|].
    rewrite !lookup_delete_ne by done.
    destruct (m !! x), (m !! y); try done. by rewrite delete_delete.
  - by rewrite IH1.
Qed.

End erasing.

Section more_properties.
Context {Args Exn : Type}.
Implicit Types (s : EventT Args Exn) (p : prog Args Exn).
Implicit Types (cb : CallbackT Args Exn) (c : EventConnection Args Exn).
Implicit Types (i j k : Z) (it : option Z) (tr : list Z) (args : Args).
Implicit Types (h : store Args Exn).

(** ** Cleanup *)

(** X1.  [Cleanup] is defined exactly when no iterator is queued twice
    and every queued iterator points into the map: these are the
    iterators [erase] may be given. *)
Theorem Cleanup_defined_iff s :
  is_Some (Cleanup s) ↔
  NoDup (connectionsToRemove s) ∧
  ∀ i, i ∈ connectionsToRemove s → is_Some (connections s !! i).
Proof.
  split.
  - intros [s1 (_ & _ & _ & E)%Cleanup_Some].
    apply erase_all_Some in E as (? & ? & _). done.
  - intros [Hnd Hin]. unfold Cleanup.
    destruct (erase_all_is_Some _ (connections s) Hnd Hin) as [m ->].
    simpl. eauto.
Qed.

(** X2.  A [Cleanup] that is defined empties the queue, erases exactly
    the queued entries, and leaves every other entry, the flag and the
    callbacks as they were. *)
Theorem Cleanup_erases_queued s s1 :
  Cleanup s = Some s1 →
  connectionsToRemove s1 = [] ∧
  Signaled s1 = Signaled s ∧
  (∀ i, i ∈ connectionsToRemove s → connections s1 !! i = None) ∧
  (∀ i, i ∉ connectionsToRemove s → connections s1 !! i = connections s !! i).
Proof.
  intros (Hsig & _ & Hq & E)%Cleanup_Some.
  apply erase_all_Some in E as (_ & _ & Hgone & Hkept & _). done.
Qed.

(** X3.  [Disconnect] followed by [Cleanup] erases that one entry: when
    [Cleanup] is defined before, and the id is in the map and not queued,
    then after [Disconnect] it is defined too, and its map is the one it
    had given before, without the id. *)
Theorem Disconnect_then_Cleanup i s s1 :
  Cleanup s = Some s1 →
  is_Some (connections s !! i) →
  i ∉ connectionsToRemove s →
  Cleanup (Disconnect i s)
  = Some {| signaled := signaled s;
            connections := delete i (connections s1);
            connectionsToRemove := [];
            nextId := nextId s |}.
Proof.
  intros (_ & _ & _ & E)%Cleanup_Some [c Hc] Hi.
  rewrite (Disconnect_present i s c Hc). unfold Cleanup. simpl.
  rewrite erase_all_app, erase_all_insert, E by done. simpl.
  rewrite lookup_insert_eq. simpl. by rewrite delete_insert_eq.
Qed.

(** X4.  The order of two [Disconnect]s does not show after [Cleanup]. *)
Theorem Disconnect_order_Cleanup i j s :
  Cleanup (Disconnect i (Disconnect j s))
  = Cleanup (Disconnect j (Disconnect i s)).
Proof.
  destruct (decide (i = j)) as [->|Hne]; [done|].
  destruct (connections s !! i) as [ci|] eqn:Ei;
    destruct (connections s !! j) as [cj|] eqn:Ej.
  - rewrite (Disconnect_present j s cj Ej), (Disconnect_present i s ci Ei).
    erewrite (Disconnect_present i), (Disconnect_present j);
      [|simpl; by rewrite lookup_insert_ne by done..].
    unfold Cleanup. simpl.
    rewrite (insert_insert_ne _ i j) by done.
    erewrite (erase_all_Permutation ((_ ++ [j]) ++ [i])); [done|].
    rewrite <-!app_assoc. apply Permutation_app_head, perm_swap.
  - rewrite (Disconnect_absent j s Ej).
    by rewrite (Disconnect_absent j (Disconnect i s))
      by (rewrite (Disconnect_present i s ci Ei); simpl;
          by rewrite lookup_insert_ne by done).
  - rewrite (Disconnect_absent i s Ei).
    by rewrite (Disconnect_absent i (Disconnect j s))
      by (rewrite (Disconnect_present j s cj Ej); simpl;
          by rewrite lookup_insert_ne by done).
  - by rewrite (Disconnect_absent i s Ei), (Disconnect_absent j s Ej),
       (Disconnect_absent i s Ei).
Qed.

(** X5.  Two [Disconnect]s of an entry with no [Signal] between them
    leave its iterator in the queue twice, and the next [Signal] is
    undefined, whatever its arguments. *)
Theorem Signal_after_double_Disconnect i s fuel args :
  is_Some (connections s !! i) →
  Signal fuel args (Disconnect i (Disconnect i s)) = Undef.
Proof.
  intros Hi. unfold Signal. by rewrite Disconnect_twice_Cleanup.
Qed.

(** ** Signal *)

(** An entry that is out of the map for good, or in it and switched off,
    and that the loop has not called, is not called by the rest of it. *)
Lemma Signal_loop_skips_disabled fuel args it tr s r i :
  Signal_loop fuel args it tr s = Ok r →
  ids_issued s →
  i ∉ tr →
  (connections s !! i = None ∧ i < nextId s) ∨
  (∃ c, connections s !! i = Some c ∧ on c = false) →
  i ∉ invoked r.
Proof.
  revert it tr s. induction fuel as [|n IH]; intros it tr s.
  - destruct it; simpl; [done|]. by intros [= <-].
  - destruct it as [k|]; simpl; [|by intros [= <-]].
    destruct (connections s !! k) as [ck|] eqn:Ek; [|done].
    intros Hr Hs Htr Hout.
    destruct (on ck) eqn:Hon; [|by eapply IH].
    assert (i ≠ k) as Hik.
    { intros ->. destruct Hout as [[? _]|(c & ? & ?)]; congruence. }
    assert (i ∉ tr ++ [k]) as Htr'.
    { intros [?|?%list_elem_of_singleton]%elem_of_app; done. }
    pose proof (run_follows (callback ck args) s Hs) as Hf.
    destruct (run (callback ck args) s) as [[|e] s']; simpl in Hf;
      [|by injection Hr as <-].
    destruct Hf as (Hn & Hold & Hnew & Hs').
    eapply IH; [exact Hr|done|done|].
    destruct Hout as [[Habs Hlt]|(c & Hc & Hoff)].
    + left. split; [|lia].
      destruct (connections s' !! i) eqn:Ei; [|done]. exfalso.
      assert (nextId s ≤ i); [|lia]. apply Hnew; [done|]. rewrite Ei. eauto.
    + right. destruct (Hold i c Hc) as (c' & Hc' & _ & Hon').
      exists c'. split; [done|]. destruct (on c'); [|done].
      rewrite Hon' in Hoff; done.
Qed.

(** X7.  [Signal] does not call an entry that was switched off when the
    pass began, queued for removal or not. *)
Theorem Signal_skips_disabled fuel args s r i c :
  ids_issued s →
  connections s !! i = Some c → on c = false →
  Signal fuel args s = Ok r →
  i ∉ invoked r.
Proof.
  intros Hs Hc Hoff Hr. unfold Signal in Hr.
  destruct (Cleanup s) as [s1|] eqn:E; [|done].
  pose proof (Cleanup_ids_issued s s1 E Hs) as Hs1.
  eapply Signal_loop_skips_disabled;
    [exact Hr|done|by intros ?%elem_of_nil|]. simpl.
  apply Cleanup_Some in E as (_ & Hn & _ & E).
  apply erase_all_Some in E as (_ & _ & Hgone & Hkept & _).
  destruct (decide (i ∈ connectionsToRemove s)) as [Hi|Hi].
  - left. split; [by apply Hgone|]. rewrite Hn. apply Hs. rewrite Hc. eauto.
  - right. exists c. by rewrite Hkept.
Qed.

(** A run of the loop goes through every point that [advances] reaches. *)
Lemma advances_Signal_loop_inv args it tr s it' tr' s' fuel r :
  advances args it tr s it' tr' s' →
  Signal_loop fuel args it tr s = Ok r →
  ∃ fuel', Signal_loop fuel' args it' tr' s' = Ok r.
Proof.
  intros Hadv. revert fuel.
  induction Hadv as [it tr s|k c tr s s' it' tr' s'' Hc Hon Hrun _ IH
                     |k c tr s it' tr' s'' Hc Hon _ IH]; intros fuel Hr.
  - eauto.
  - destruct fuel as [|n]; [done|]. simpl in Hr.
    rewrite Hc, Hon, Hrun in Hr. eauto.
  - destruct fuel as [|n]; [done|]. simpl in Hr.
    rewrite Hc, Hon in Hr. eauto.
Qed.

(** X8.  An entry that is switched off during a pass before its turn,
    by a callback of that pass, is not called by the pass. *)
Theorem Signal_skips_disabled_in_flight fuel args s s1 it tr sk r i c :
  ids_issued s →
  Cleanup s = Some s1 →
  advances args (map_begin (connections s1)) [] (SetSignaled true s1)
    it tr sk →
  connections sk !! i = Some c → on c = false → i ∉ tr →
  Signal fuel args s = Ok r →
  i ∉ invoked r.
Proof.
  intros Hs E Hadv Hc Hoff Htr Hr.
  rewrite (Signal_unfold _ _ _ _ E) in Hr.
  destruct (advances_Signal_loop_inv _ _ _ _ _ _ _ _ _ Hadv Hr) as [fuel' Hr'].
  eapply Signal_loop_skips_disabled; [exact Hr'| |done|eauto].
  eapply follows_ids_issued, advances_follows; [exact Hadv|].
  by apply (Cleanup_ids_issued s s1).
Qed.

(** X9.  When no entry that [Cleanup] leaves is enabled, [Signal] calls
    nothing and returns: it has done its [Cleanup] and set the flag. *)
Theorem Signal_nothing_enabled fuel args s s1 :
  Cleanup s = Some s1 →
  (∀ i c, connections s1 !! i = Some c → on c = false) →
  (size (connections s1) ≤ fuel)%nat →
  Signal fuel args s
  = Ok {| invoked := []; ending := Returned; final := SetSignaled true s1 |}.
Proof.
  intros E Hoff Hfuel.
  destruct (Signal_returning args s s1 E) as (l & Hrun & _ & Hmem).
  { intros i c Hc Hon. rewrite (Hoff i c Hc) in Hon. done. }
  rewrite (Hrun fuel Hfuel). destruct l as [|a l]; [done|]. exfalso.
  destruct (proj1 (Hmem a)) as (c & Hc & Hon); [apply list_elem_of_here|].
  rewrite (Hoff a c Hc) in Hon. done.
Qed.

(** X10.  With callbacks that call [Connect], [Disconnect],
    [ConnectionCount], [Signaled] and [SetSignaled] and do not call
    [Signal] again, a pass, after its [Cleanup], erases no entry,
    switches none back on and changes no stored callback, and an id it
    adds is at or above the counter. *)
Theorem Signal_keeps_entries fuel args s s1 r :
  ids_issued s →
  Cleanup s = Some s1 →
  Signal fuel args s = Ok r →
  (∀ i c, connections s1 !! i = Some c →
     ∃ c', connections (final r) !! i = Some c' ∧
           callback c' = callback c ∧ (on c' = true → on c = true)) ∧
  (∀ i, connections s1 !! i = None → is_Some (connections (final r) !! i) →
     nextId s ≤ i).
Proof.
  intros Hs E Hr. rewrite (Signal_unfold _ _ _ _ E) in Hr.
  pose proof (Cleanup_ids_issued s s1 E Hs) as Hs1.
  destruct (Signal_loop_follows _ _ _ _ _ _ Hr Hs1) as (_ & Hold & Hnew & _).
  apply Cleanup_Some in E as (_ & Hn & _). simpl in *.
  rewrite <-Hn. done.
Qed.

(** X11.  An exception that leaves [Signal] is one that a callback of
    the pass threw: the pass had come to an enabled entry, the last it
    called, whose callback threw it, and the event is as that callback
    left it. *)
Theorem Signal_exception_origin fuel args s r (e : Exn) :
  Signal fuel args s = Ok r →
  ending r = Threw e →
  ∃ s1 k c tr sk,
    Cleanup s = Some s1 ∧
    advances args (map_begin (connections s1)) [] (SetSignaled true s1)
      (Some k) tr sk ∧
    connections sk !! k = Some c ∧ on c = true ∧
    run (callback c args) sk = (Threw e, final r) ∧
    invoked r = tr ++ [k].
Proof.
  intros Hr Hend. unfold Signal in Hr.
  destruct (Cleanup s) as [s1|] eqn:E; [|done].
  apply Signal_loop_advances in Hr. rewrite Hend in Hr.
  destruct Hr as (k & c & tr & sk & ? & ? & ? & ? & ?).
  by exists s1, k, c, tr, sk.
Qed.

(** ** Handles *)

(** X13.  The destructor of a handle changes no event but the one its
    pointer names. *)
Theorem Connection_dtor_frame (c c' : Connection) h h' (e' : loc) :
  Connection_dtor c h = Some (c', h') →
  event c ≠ Some e' →
  h' !! e' = h !! e'.
Proof.
  unfold Connection_dtor, Disconnect_at. destruct c as [[e|] n]; simpl.
  - case_bool_decide; [|by intros [= <- <-]].
    destruct (h !! e) as [s|]; simpl; [|done].
    intros [= <- <-] He. apply lookup_insert_ne. congruence.
  - by intros [= <- <-].
Qed.

(** X14.  [Disconnect] erases nothing and touches no other connection:
    the ids of the map are the same, every other entry is as it was, and
    the entry of the id keeps its callback. *)
Theorem Disconnect_frame i s :
  dom (connections (Disconnect i s)) = dom (connections s) ∧
  (∀ j, j ≠ i → connections (Disconnect i s) !! j = connections s !! j) ∧
  callback <$> connections (Disconnect i s) !! i
  = callback <$> connections s !! i.
Proof.
  unfold Disconnect. destruct (connections s !! i) as [c|] eqn:E; simpl.
  - split_and!.
    + apply dom_insert_lookup_L. rewrite E. eauto.
    + intros j Hj. by apply lookup_insert_ne.
    + by rewrite lookup_insert_eq.
  - split_and!; [done|done|by rewrite E].
Qed.

End more_properties.

(** ** The same on events of signature [void(int)] *)

Lemma four_connections_ids_issued : ids_issued four_connections.
Proof.
  unfold four_connections.
  eapply follows_ids_issued, Disconnect_follows.
  do 4 (eapply follows_ids_issued, Connect_follows).
  apply ids_issued_ctor.
Qed.

(** [Cleanup] of [one_revoked] erases entry 0 and empties the queue. *)
Lemma Cleanup_erases_queued_witness :
  ∃ s1, Cleanup one_revoked = Some s1 ∧
        connectionsToRemove s1 = [] ∧ connections s1 !! 0 = None.
Proof.
  eexists. split; [reflexivity|].
  edestruct (Cleanup_erases_queued one_revoked) as (Hq & _ & Hgone & _);
    [reflexivity|].
  split; [exact Hq|]. apply Hgone, list_elem_of_here.
Defined.

(** [Disconnect(0)] and [Cleanup] on [one_connection] leave no entry. *)
Lemma Disconnect_then_Cleanup_witness :
  ConnectionCount <$> Cleanup (Disconnect 0 one_connection) = Some 0.
Proof.
  rewrite (Disconnect_then_Cleanup 0 one_connection _ eq_refl);
    [reflexivity|by eexists|by intros ?%elem_of_nil].
Defined.

(** [Signal] after [Disconnect(0)] twice on [one_connection]. *)
Lemma Signal_after_double_Disconnect_witness :
  Signal 3 5 (Disconnect 0 (Disconnect 0 one_connection)) = Undef.
Proof. apply Signal_after_double_Disconnect. by eexists. Defined.

(** The pass over [four_connections] does not call entry 0, which was
    disconnected before it. *)
Lemma Signal_skips_disabled_witness :
  ∃ r, Signal 5 5 four_connections = Ok r ∧ 0 ∉ invoked r.
Proof.
  eexists. split; [reflexivity|].
  eapply (Signal_skips_disabled 5 5 four_connections _ 0).
  - apply four_connections_ids_issued.
  - reflexivity.
  - reflexivity.
  - reflexivity.
Defined.

(** The pass over [four_connections] does not call entry 3, which the
    callback of entry 1 disconnects. *)
Lemma Signal_skips_disabled_in_flight_witness :
  ∃ r, Signal 5 5 four_connections = Ok r ∧ 3 ∉ invoked r.
Proof.
  eexists. split; [reflexivity|].
  eapply (Signal_skips_disabled_in_flight 5 5 four_connections _ (Some 2) [1]
            _ _ 3).
  - apply four_connections_ids_issued.
  - reflexivity.
  - change (map_begin _) with (Some 1).
    eapply advances_call; [reflexivity..|].
    change (map_next _ _) with (Some 2). apply advances_here.
  - reflexivity.
  - reflexivity.
  - by intros ?%list_elem_of_singleton.
  - reflexivity.
Defined.

(** [Signal] on [one_revoked], whose only entry [Cleanup] erases. *)
Lemma Signal_nothing_enabled_witness :
  ∃ s1, Cleanup one_revoked = Some s1 ∧
        Signal 0 5 one_revoked
        = Ok {| invoked := []; ending := Returned;
                final := SetSignaled true s1 |}.
Proof.
  eexists. split; [reflexivity|].
  apply Signal_nothing_enabled; [reflexivity| |reflexivity].
  intros i c H. simpl in H.
  change (delete 0 _) with (∅ : gmap Z (EventConnection Z string)) in H.
  by apply lookup_empty_Some in H.
Defined.

(** The pass over [connecting_event] keeps entry 0 and adds entry 1. *)
Lemma Signal_keeps_entries_witness :
  ∃ r, Signal 2 5 connecting_event = Ok r ∧
       is_Some (connections (final r) !! 0).
Proof.
  eexists. split; [reflexivity|].
  edestruct (Signal_keeps_entries 2 5 connecting_event) as [Hold _].
  - apply (follows_ids_issued EventT_ctor), Connect_follows, ids_issued_ctor.
  - reflexivity.
  - reflexivity.
  - edestruct (Hold 0) as (c' & Hc' & _); [reflexivity|].
    rewrite Hc'. by eexists.
Defined.

(** The exception of the pass over [four_connections] is the one the
    callback of entry 2 throws. *)
Lemma Signal_exception_origin_witness :
  ∃ r s1 k c tr sk,
    Signal 5 5 four_connections = Ok r ∧
    Cleanup four_connections = Some s1 ∧
    advances 5 (map_begin (connections s1)) [] (SetSignaled true s1)
      (Some k) tr sk ∧
    connections sk !! k = Some c ∧ on c = true ∧
    run (callback c 5) sk = (Threw "boom", final r) ∧
    invoked r = tr ++ [k].
Proof.
  eexists.
  edestruct (Signal_exception_origin 5 5 four_connections)
    as (s1 & k & c & tr & sk & H); [reflexivity|reflexivity|].
  exists s1, k, c, tr, sk. split; [reflexivity|exact H].
Defined.

(** A handle on the event at 1 leaves an event at 2 alone. *)
Lemma Connection_dtor_frame_witness :
  ∃ c' h',
    Connection_dtor {| event := Some 1%positive; id := 0 |}
      (<[2%positive := one_connection]> one_event) = Some (c', h') ∧
    h' !! 2%positive
    = (<[2%positive := one_connection]> one_event) !! 2%positive.
Proof.
  do 2 eexists. split; [reflexivity|].
  eapply (Connection_dtor_frame {| event := Some 1%positive; id := 0 |} _
            (<[2%positive := one_connection]> one_event));
    [reflexivity|done].
Defined.
